(** * AI quiz generator: server-side normalisation and the client quiz session

    A shallow embedding of the two [server.js] variants (payload extraction
    and [normalizeQuestions]) and of the browser script (question fetching
    with de-duplication, the quiz state machine, the countdown timer and the
    answer feedback), with the properties stated about them.

    Conventions of the embedding:
    - a JavaScript string is the list of its UTF-16 code units;
    - a JavaScript number is an integer ([Z]): the indices and counts the
      program computes with; fractional values and NaN are not represented;
    - a value decoded from JSON is a [JSON] tree, a missing property is [None];
    - code that can raise is in the [result] monad;
    - [JSON.parse], a builtin of the platform, is a parameter of the
      definitions that call it; [JS.JSON_parse] is a reference parser used to
      run them on concrete texts;
    - the event loop of the browser is a function from an event and a state
      to a state: a click, a key, the answer to a request, an interval or a
      timeout firing. Timeouts fire in any order, which covers every order
      their delays allow.

    Left out: the rate limiter and the loop over the candidate models of the
    server (the embedding starts from the text a model has answered), the
    set-up dialog, the wall clock ([quizStartTime] and the statistics of the
    results page) and what only changes the display (progress bar, counters,
    colour of the timer). *)

From Stdlib Require Import ZArith NArith String Ascii Lia.
From stdpp Require Import base tactics option list gmap.

#[local] Open Scope Z_scope.
#[local] Set Warnings "-clear-no-such-hyp".

(** ** JavaScript values *)

Module JS.

(** Strings: code units. *)
Abbreviation jstring := (list N).

Definition lit (s : string) : jstring :=
  (fun a => N_of_ascii a) <$> list_ascii_of_string s.

(** A literal with ['] standing for the double quote, to write JSON texts. *)
Definition text (s : string) : jstring :=
  (fun c => if (c =? 39)%N then 34%N else c) <$> lit s.

Definition jstring_eqb (a b : jstring) : bool := bool_decide (a = b).

(** White space and line terminators of ECMAScript ([String.prototype.trim]
    and the regular-expression class [\s]). *)
Definition is_ws (c : N) : bool :=
  ((9 <=? c) && (c <=? 13) || (c =? 32) || (c =? 160) || (c =? 5760)
   || (8192 <=? c) && (c <=? 8202) || (c =? 8232) || (c =? 8233)
   || (c =? 8239) || (c =? 8287) || (c =? 12288) || (c =? 65279))%N.

Fixpoint trimStart (s : jstring) : jstring :=
  match s with
  | c :: t => if is_ws c then trimStart t else s
  | [] => []
  end.

Definition trimEnd (s : jstring) : jstring := reverse (trimStart (reverse s)).

Definition trim (s : jstring) : jstring := trimEnd (trimStart s).

Fixpoint starts_with (p s : jstring) : bool :=
  match p, s with
  | [], _ => true
  | a :: p', b :: s' => (a =? b)%N && starts_with p' s'
  | _ :: _, [] => false
  end.

(** [s.indexOf(p)]: index of the first occurrence, [-1] when there is none. *)
Fixpoint indexOf_from (p s : jstring) (i : Z) : Z :=
  if starts_with p s then i
  else match s with
       | [] => -1
       | _ :: t => indexOf_from p t (i + 1)
       end.

Definition indexOf (s p : jstring) : Z := indexOf_from p s 0.

(** [s.lastIndexOf(p)]: index of the last occurrence, [-1] when none. *)
Fixpoint lastIndexOf_from (p s : jstring) (i : Z) (found : Z) : Z :=
  let found' := if starts_with p s then i else found in
  match s with
  | [] => found'
  | _ :: t => lastIndexOf_from p t (i + 1) found'
  end.

Definition lastIndexOf (s p : jstring) : Z := lastIndexOf_from p s 0 (-1).

(** [a.slice(b, e)] on strings and arrays: negative positions count from the
    end, positions are clipped to the length, an empty range gives []. *)
Definition slice_pos (len i : Z) : Z :=
  if i <? 0 then Z.max (len + i) 0 else Z.min i len.

Definition slice {A} (l : list A) (b e : Z) : list A :=
  let len := Z.of_nat (length l) in
  let from := slice_pos len b in
  let to := slice_pos len e in
  take (Z.to_nat (to - from)) (drop (Z.to_nat from) l).

(** [a[i]] for a number [i]: [undefined] out of range. *)
Definition index {A} (l : list A) (i : Z) : option A :=
  if i <? 0 then None else l !! Z.to_nat i.

(** [a.indexOf(x)] on an array of strings (strict equality). *)
Fixpoint array_indexOf_from (l : list jstring) (x : jstring) (i : Z) : Z :=
  match l with
  | [] => -1
  | y :: t => if jstring_eqb y x then i else array_indexOf_from t x (i + 1)
  end.

Definition array_indexOf (l : list jstring) (x : jstring) : Z :=
  array_indexOf_from l x 0.

(** Decimal rendering of a number. *)
Definition digit (n : N) : N := (48 + n)%N.

Fixpoint pos_digits (fuel : nat) (p : N) (acc : jstring) : jstring :=
  match fuel with
  | O => acc
  | S f => let acc' := digit (p mod 10) :: acc in
           if (p / 10 =? 0)%N then acc' else pos_digits f (p / 10)%N acc'
  end.

Definition Number_toString (z : Z) : jstring :=
  let n := Z.to_N (Z.abs z) in
  let ds := pos_digits (S (N.to_nat (N.log2 n))) n [] in
  if z <? 0 then 45%N :: ds else ds.

(** Values decoded from JSON. *)
#[local] Set Warnings "-register-all".
Inductive JSON :=
| JNull
| JBool (b : bool)
| JNum (n : Z)
| JStr (s : jstring)
| JArr (items : list JSON)
| JObj (fields : list (jstring * JSON)).

(** Errors the modelled code can raise. *)
Inductive error :=
| TypeError
| Unavailable
| Failure (message : jstring) (raw : option jstring).

Inductive result (A : Type) :=
| Ok (a : A)
| Throw (e : error).
Arguments Ok {A} a.
Arguments Throw {A} e.

#[global] Instance result_ret : MRet result := fun A a => Ok a.
#[global] Instance result_bind : MBind result := fun A B f m =>
  match m with Ok a => f a | Throw e => Throw e end.

(** Own property of an object, last binding first as [JSON.parse] keeps the
    last of duplicate keys. *)
Fixpoint own (fields : list (jstring * JSON)) (k : jstring) : option JSON :=
  match fields with
  | [] => None
  | (k', v) :: t =>
      match own t k with
      | Some w => Some w
      | None => if jstring_eqb k' k then Some v else None
      end
  end.

(** [v.k] for a data property [k]: raises on [null], [undefined] on
    primitives, arrays and objects that lack it. *)
Definition prop (v : JSON) (k : string) : result (option JSON) :=
  match v with
  | JNull => Throw TypeError
  | JObj fields => Ok (own fields (lit k))
  | _ => Ok None
  end.

(** Truthiness of a possibly [undefined] value. *)
Definition truthy (v : option JSON) : bool :=
  match v with
  | None | Some JNull | Some (JBool false) => false
  | Some (JNum n) => negb (n =? 0)
  | Some (JStr s) => negb (jstring_eqb s [])
  | Some _ => true
  end.

(** [a || b]. *)
Definition or_else (a b : option JSON) : option JSON :=
  if truthy a then a else b.

Definition isArray (v : option JSON) : option (list JSON) :=
  match v with Some (JArr l) => Some l | _ => None end.

Definition isNumber (v : option JSON) : option Z :=
  match v with Some (JNum n) => Some n | _ => None end.

Definition isString (v : option JSON) : option jstring :=
  match v with Some (JStr s) => Some s | _ => None end.

Definition join (sep : jstring) (parts : list jstring) : jstring :=
  match parts with
  | [] => []
  | p :: ps => p ++ concat ((fun q => sep ++ q) <$> ps)
  end.

(** [String(v)] and [v.toString()] of a decoded value. An array is its
    elements joined by commas, [null] elements as empty strings; a plain
    object is the text [object Object], unless it carries an own [toString]
    entry, which is not callable. *)
Fixpoint toString (v : JSON) : result jstring :=
  match v with
  | JNull => Ok (lit "null")
  | JBool true => Ok (lit "true")
  | JBool false => Ok (lit "false")
  | JNum n => Ok (Number_toString n)
  | JStr s => Ok s
  | JArr l =>
      let fix parts (l : list JSON) : result (list jstring) :=
        match l with
        | [] => Ok []
        | x :: t =>
            s ← match x with JNull => Ok [] | _ => toString x end;
            r ← parts t;
            Ok (s :: r)
        end in
      ps ← parts l; Ok (join (lit ",") ps)
  | JObj fields =>
      match own fields (lit "toString") with
      | Some _ => Throw TypeError
      | None => Ok (lit "[object Object]")
      end
  end.

(** [l.map(String)], left to right, stopping at the first error. *)
Fixpoint map_String (l : list JSON) : result (list jstring) :=
  match l with
  | [] => Ok []
  | x :: t => s ← toString x; r ← map_String t; Ok (s :: r)
  end.

(** *** Reference JSON parser

    The grammar of RFC 8259 over code units. A numeral that does not denote
    an integer has no counterpart in [JNum] and is rejected. *)

Definition json_ws (c : N) : bool :=
  ((c =? 32) || (c =? 9) || (c =? 10) || (c =? 13))%N.

Fixpoint skip_ws (s : jstring) : jstring :=
  match s with
  | c :: t => if json_ws c then skip_ws t else s
  | [] => []
  end.

Definition is_digit (c : N) : bool := ((48 <=? c) && (c <=? 57))%N.

Fixpoint take_digits (s : jstring) : jstring * jstring :=
  match s with
  | c :: t => if is_digit c then let '(d, r) := take_digits t in (c :: d, r)
              else ([], s)
  | [] => ([], [])
  end.

Definition digits_value (d : jstring) : Z :=
  foldl (fun acc c => 10 * acc + Z.of_N (c - 48)) 0 d.

Definition hex_value (c : N) : option N :=
  if is_digit c then Some (c - 48)%N
  else if ((97 <=? c) && (c <=? 102))%N then Some (c - 87)%N
  else if ((65 <=? c) && (c <=? 70))%N then Some (c - 55)%N
  else None.

Definition parse_number (s : jstring) : option (JSON * jstring) :=
  let '(neg, s1) := match s with 45%N :: t => (true, t) | _ => (false, s) end in
  let '(int, s2) := take_digits s1 in
  match int with
  | [] => None
  | d0 :: more =>
      if (d0 =? 48)%N && negb (bool_decide (more = [])) then None
      else
        let frac_r :=
          match s2 with
          | 46%N :: t =>
              let '(fr, r) := take_digits t in
              if bool_decide (fr = []) then None else Some (fr, r)
          | _ => Some ([], s2)
          end in
        '(fr, s3) ← frac_r;
        let exp_r :=
          match s3 with
          | c :: t =>
              if ((c =? 101) || (c =? 69))%N then
                let '(sgn, t') := match t with
                                  | 43%N :: u => (1, u)
                                  | 45%N :: u => (-1, u)
                                  | _ => (1, t)
                                  end in
                let '(ex, r) := take_digits t' in
                if bool_decide (ex = []) then None
                else Some (sgn * digits_value ex, r)
              else Some (0, s3)
          | [] => Some (0, s3)
          end in
        '(ex, s4) ← exp_r;
        let m := digits_value (int ++ fr) in
        let e := ex - Z.of_nat (length fr) in
        let sign := if neg then -1 else 1 in
        if 0 <=? e then Some (JNum (sign * m * 10 ^ e), s4)
        else if m mod 10 ^ (- e) =? 0 then Some (JNum (sign * (m / 10 ^ (- e))), s4)
        else None
  end.

(** The characters of a string literal, after its opening quote. *)
Fixpoint parse_chars (s : jstring) (acc : jstring) : option (jstring * jstring) :=
  match s with
  | [] => None
  | 34%N :: r => Some (reverse acc, r)
  | 92%N :: 117%N :: a :: b :: c :: d :: r =>
      ha ← hex_value a; hb ← hex_value b; hc ← hex_value c; hd ← hex_value d;
      parse_chars r ((ha * 4096 + hb * 256 + hc * 16 + hd)%N :: acc)
  | 92%N :: e :: r =>
      u ← (if (e =? 34)%N then Some 34%N
           else if (e =? 92)%N then Some 92%N
           else if (e =? 47)%N then Some 47%N
           else if (e =? 98)%N then Some 8%N
           else if (e =? 102)%N then Some 12%N
           else if (e =? 110)%N then Some 10%N
           else if (e =? 114)%N then Some 13%N
           else if (e =? 116)%N then Some 9%N
           else None);
      parse_chars r (u :: acc)
  | c :: r => if (c <? 32)%N then None else parse_chars r (c :: acc)
  end.

Fixpoint parse_value (fuel : nat) (s : jstring) : option (JSON * jstring) :=
  match fuel with
  | O => None
  | S f =>
      let s := skip_ws s in
      if starts_with (lit "null") s then Some (JNull, drop 4 s)
      else if starts_with (lit "true") s then Some (JBool true, drop 4 s)
      else if starts_with (lit "false") s then Some (JBool false, drop 5 s)
      else match s with
           | 34%N :: r => '(str, r') ← parse_chars r []; Some (JStr str, r')
           | 91%N :: r =>
               match skip_ws r with
               | 93%N :: r' => Some (JArr [], r')
               | _ => parse_elements f r []
               end
           | 123%N :: r =>
               match skip_ws r with
               | 125%N :: r' => Some (JObj [], r')
               | _ => parse_members f r []
               end
           | _ => parse_number s
           end
  end
with parse_elements (fuel : nat) (s : jstring) (acc : list JSON)
  : option (JSON * jstring) :=
  match fuel with
  | O => None
  | S f =>
      '(v, r) ← parse_value f s;
      match skip_ws r with
      | 44%N :: r' => parse_elements f r' (v :: acc)
      | 93%N :: r' => Some (JArr (reverse (v :: acc)), r')
      | _ => None
      end
  end
with parse_members (fuel : nat) (s : jstring) (acc : list (jstring * JSON))
  : option (JSON * jstring) :=
  match fuel with
  | O => None
  | S f =>
      match skip_ws s with
      | 34%N :: r =>
          '(k, r1) ← parse_chars r [];
          match skip_ws r1 with
          | 58%N :: r2 =>
              '(v, r3) ← parse_value f r2;
              match skip_ws r3 with
              | 44%N :: r' => parse_members f r' ((k, v) :: acc)
              | 125%N :: r' => Some (JObj (reverse ((k, v) :: acc)), r')
              | _ => None
              end
          | _ => None
          end
      | _ => None
      end
  end.

(** [JSON.parse(text)]: [None] stands for the raised [SyntaxError]. *)
Definition JSON_parse (text : jstring) : option JSON :=
  '(v, r) ← parse_value (2 * length text + 8) text;
  if bool_decide (skip_ws r = []) then Some v else None.

End JS.

(** ** First server variant: [extractJsonFromText], [normalizeQuestions],
    [generateWithGemini] and the [/generate-quiz] handler *)

Module Server.
Import JS.

(** The shape [normalizeQuestions] returns. *)
Record Question := {
  question : jstring;
  options : list jstring;
  answer_index : Z;
  explanation : jstring
}.

(** [while (o.length < 4) o.push(Option)] *)
Definition pad (o : list jstring) : list jstring :=
  o ++ replicate (4 - length o)%nat (lit "Option").

(** The block that ensures four options: pad or truncate. *)
Definition ensure_four (options : list jstring) : list jstring :=
  if (length options <? 4)%nat then slice (pad options) 0 4
  else if (4 <? length options)%nat then slice options 0 4
  else options.

(** The callback of [items.map] in [normalizeQuestions]. *)
Definition normalize_item (it : JSON) : result Question :=
  q1 ← prop it "question";
  q2 ← prop it "q";
  q3 ← prop it "Q";
  qs ← match or_else (or_else (or_else q1 q2) q3) (Some (JStr [])) with
       | Some v => toString v
       | None => Throw TypeError
       end;
  let question := trim qs in
  o1 ← prop it "options";
  o2 ← prop it "choices";
  opts ← match isArray o1 with
         | Some l => map_String l
         | None => match isArray o2 with
                   | Some l => map_String l
                   | None => Ok []
                   end
         end;
  let options := ensure_four opts in
  a1 ← prop it "answer_index";
  a2 ← prop it "answerIndex";
  a3 ← prop it "answer";
  let answer_index :=
    match isNumber a1 with
    | Some n => n
    | None =>
        match isNumber a2 with
        | Some n => n
        | None =>
            match isString a3 with
            | Some a => if 0 <=? array_indexOf options a
                        then array_indexOf options a else 0
            | None => 0
            end
        end
    end in
  e ← prop it "explanation";
  explanation ← match e with
                | Some v => if truthy e then toString v else Ok []
                | None => Ok []
                end;
  Ok {| question := question; options := options;
        answer_index := answer_index; explanation := explanation |}.

(** The predicate of [.filter]. *)
Definition usable (q : Question) : bool :=
  negb (jstring_eqb (question q) []) && (2 <=? length (options q))%nat.

Fixpoint map_items (f : JSON -> result Question) (l : list JSON)
  : result (list Question) :=
  match l with
  | [] => Ok []
  | it :: t => q ← f it; r ← map_items f t; Ok (q :: r)
  end.

Definition normalizeQuestions (items : JSON) (count : Z) : result (list Question) :=
  match items with
  | JArr l =>
      questions ← map_items normalize_item l;
      Ok (slice (filter (fun q => usable q = true) questions) 0 count)
  | _ => Ok []
  end.

Section WithParser.
(** [JSON.parse]; [None] when it raises. *)
Variable JSON_parse : jstring -> option JSON.

Definition extractJsonFromText (rawText : jstring) : option JSON :=
  if jstring_eqb rawText [] then None
  else
    let start := indexOf rawText (lit "```json") in
    let end_ := lastIndexOf rawText (lit "```") in
    if (start =? -1) || (end_ =? -1) then None
    else
      let jsonString := trim (slice rawText (start + 7) end_) in
      JSON_parse jsonString.

(** [generateWithGemini] from the point where the loop over the candidate
    models has ended with [text] as [responseText], empty when no model
    answered. *)
Definition generateWithGemini (text : jstring) (count : Z)
  : result (list Question) :=
  if jstring_eqb text [] then Throw Unavailable else
  let parsed := extractJsonFromText text in
  let parsed := if truthy parsed then parsed
                else match JSON_parse text with
                     | Some v => Some v
                     | None => parsed
                     end in
  let questions :=
    match parsed with
    | Some (JArr l) => Some (JArr l)
    | Some (JObj fields) => own fields (lit "questions")
    | _ => None
    end in
  match questions with
  | Some (JArr l) => normalizeQuestions (JArr l) count
  | _ => Throw (Failure (lit "Failed to parse Gemini JSON.")
                        (Some (slice text 0 2000)))
  end.

(** What the handler sends back. *)
Inductive reply :=
| Reply200 (questions : list Question)
| Reply400 (message : jstring)
| Reply500 (details : error)
| Reply502.

(** The [/generate-quiz] handler, past the rate limiter and with the API
    key configured; [text] is what the model answers. *)
Definition generate_quiz (topic : option JSON) (count : option JSON)
    (text : jstring) : reply :=
  let count := match count with None => Some (JNum 5) | c => c end in
  match isString topic with
  | Some t =>
      if (Z.of_nat (length (trim t)) <? 3) then
        Reply400 (lit "Invalid topic (min 3 chars).")
      else
        match isNumber count with
        | Some c =>
            if (c <? 1) || (20 <? c) then
              Reply400 (lit "Count must be integer between 1 and 20.")
            else
              match generateWithGemini text c with
              | Ok questions => Reply200 questions
              | Throw Unavailable => Reply502
              | Throw e => Reply500 e
              end
        | None => Reply400 (lit "Count must be integer between 1 and 20.")
        end
  | None => Reply400 (lit "Invalid topic (min 3 chars).")
  end.

End WithParser.

(** A well-formed provider item: an object whose [question] is a string
    that is not blank, whose [options] are four strings, whose
    [answer_index] is a number and whose [explanation], if any, is a
    string. *)
Definition well_formed (it : JSON) : bool :=
  match it with
  | JObj fields =>
      match own fields (lit "question"), own fields (lit "options"),
            own fields (lit "answer_index") with
      | Some (JStr t), Some (JArr opts), Some (JNum _) =>
          negb (jstring_eqb (trim t) [])
          && bool_decide (length opts = 4%nat)
          && forallb (fun o => match o with JStr _ => true | _ => false end) opts
          && match own fields (lit "explanation") with
             | None | Some (JStr _) => true
             | Some _ => false
             end
      | _, _, _ => false
      end
  | _ => false
  end.

(** What [normalize_item] makes of a well-formed item. *)
Definition kept (it : JSON) (q : Question) : Prop :=
  exists fields t,
    it = JObj fields
    /\ own fields (lit "question") = Some (JStr t)
    /\ question q = trim t
    /\ own fields (lit "options") = Some (JArr (JStr <$> options q))
    /\ length (options q) = 4%nat
    /\ own fields (lit "answer_index") = Some (JNum (answer_index q)).

(** The body of a [Reply200], as the client decodes it. *)
Definition Question_json (q : Question) : JSON :=
  JObj [ (lit "question", JStr (question q));
         (lit "options", JArr (JStr <$> options q));
         (lit "answer_index", JNum (answer_index q));
         (lit "explanation", JStr (explanation q)) ].

Definition reply_body (questions : list Question) : JSON :=
  JObj [ (lit "status", JStr (lit "ok"));
         (lit "questions", JArr (Question_json <$> questions)) ].

End Server.

(** ** Second server variant: [extractJsonArrayFromText] and the inline
    normalisation of its [/generate-quiz] handler *)

Module ServerAlt.
Import JS.
Export Server(Question, Build_Question, question, options, answer_index,
              explanation, usable, map_items, pad, reply).

(** Deleting the fence markers: [.replace(/```json|```/g, empty)]. *)
Fixpoint strip_fences_from (skip : nat) (s : jstring) : jstring :=
  match s with
  | [] => []
  | c :: t =>
      match skip with
      | S k => strip_fences_from k t
      | O => if starts_with (lit "```json") s then strip_fences_from 6 t
             else if starts_with (lit "```") s then strip_fences_from 2 t
             else c :: strip_fences_from 0 t
      end
  end.

Definition strip_fences (s : jstring) : jstring := strip_fences_from 0 s.

(** The two replacements of typographic quotes: U+201C and U+201D by the
    double quote, U+2018 and U+2019 by the apostrophe. *)
Definition plain_quote (c : N) : N :=
  if ((c =? 8220) || (c =? 8221))%N then 34%N
  else if ((c =? 8216) || (c =? 8217))%N then 39%N
  else c.

Definition plain_quotes (s : jstring) : jstring := plain_quote <$> s.

(** Does [\s*[}\]]] match at the head of [s]? *)
Fixpoint closes (s : jstring) : bool :=
  match s with
  | c :: t => if is_ws c then closes t else ((c =? 125) || (c =? 93))%N
  | [] => false
  end.

(** Deleting each comma that white space and a closing brace or bracket
    follow: [.replace(/,(\s*[}\]])/g, $1)]. *)
Fixpoint drop_trailing_commas (s : jstring) : jstring :=
  match s with
  | [] => []
  | c :: t => if (c =? 44)%N && closes t then drop_trailing_commas t
              else c :: drop_trailing_commas t
  end.

(** [.replace(/\r\n/g, \n)] *)
Fixpoint unix_newlines (s : jstring) : jstring :=
  match s with
  | [] => []
  | c :: t =>
      match t with
      | d :: _ => if ((c =? 13) && (d =? 10))%N then unix_newlines t
                  else c :: unix_newlines t
      | [] => [c]
      end
  end.

(** [.replace(/\n+/g, \n)] *)
Fixpoint collapse_newlines (s : jstring) : jstring :=
  match s with
  | [] => []
  | c :: t =>
      match t with
      | d :: _ => if ((c =? 10) && (d =? 10))%N then collapse_newlines t
                  else c :: collapse_newlines t
      | [] => [c]
      end
  end.

Definition clean (jsonString : jstring) : jstring :=
  let jsonString := strip_fences jsonString in
  let jsonString := plain_quotes jsonString in
  let jsonString := drop_trailing_commas jsonString in
  trim (collapse_newlines (unix_newlines jsonString)).

(** The callback of [parsed.map] in the handler. The padded copy [o] is
    local to the [if] block: [options] itself stays as decoded. *)
Definition normalize_item (it : JSON) : result Question :=
  q1 ← prop it "question";
  q2 ← prop it "q";
  q3 ← prop it "Q";
  qs ← match or_else (or_else (or_else q1 q2) q3) (Some (JStr [])) with
       | Some v => toString v
       | None => Throw TypeError
       end;
  let question := trim qs in
  o1 ← prop it "options";
  o2 ← prop it "choices";
  options ← match isArray o1 with
            | Some l => map_String l
            | None => match isArray o2 with
                      | Some l => map_String l
                      | None => Ok []
                      end
            end;
  let _ := if (length options <? 4)%nat
           then let o := pad options in take 4 o
           else options in
  a1 ← prop it "answer_index";
  a2 ← prop it "answerIndex";
  a3 ← prop it "answer";
  let answer_index :=
    match isNumber a1 with
    | Some n => n
    | None =>
        match isNumber a2 with
        | Some n => n
        | None =>
            match isString a3 with
            | Some a => if 0 <=? array_indexOf options a
                        then array_indexOf options a else 0
            | None => 0
            end
        end
    end in
  e ← prop it "explanation";
  explanation ← match e with
                | Some v => if truthy e then toString v else Ok []
                | None => Ok []
                end;
  Ok (Build_Question question options answer_index explanation).

Section WithParser.
Variable JSON_parse : jstring -> option JSON.

(** [rawText] is the text of the first candidate, empty when the
    response carried none. *)
Definition extractJsonArrayFromText (rawText : jstring) : option JSON :=
  if jstring_eqb rawText [] then None
  else
    let start := indexOf rawText (lit "[") in
    let end_ := lastIndexOf rawText (lit "]") + 1 in
    if (start =? -1) || (end_ =? -1) then None
    else JSON_parse (clean (slice rawText start end_)).

(** The handler from [extractJsonArrayFromText] on, for a validated
    [count]. *)
Definition generate_quiz (rawText : jstring) (count : Z) : reply :=
  match extractJsonArrayFromText rawText with
  | Some (JArr parsed) =>
      match map_items normalize_item parsed with
      | Ok questions =>
          let questions := filter (fun q => usable q = true) questions in
          let trimmed := slice questions 0 count in
          Server.Reply200 trimmed
      | Throw e => Server.Reply500 e
      end
  | _ => Server.Reply500
           (Failure (lit "Failed to parse Gemini JSON.")
              (if jstring_eqb rawText [] then None
               else Some (slice rawText 0 2000)))
  end.

End WithParser.

End ServerAlt.

(** ** The browser script *)

Module Client.
Import JS.

(** An entry of [quizData]. *)
Record Question := {
  question : jstring;
  options : list JSON;
  answer_index : Z;
  explanation : JSON
}.

(** An option button of the page with its letter, its text, its feedback
    classes and whether it still takes pointer events. *)
Record button := {
  letter : N;
  label : jstring;
  selected : bool;
  correct : bool;
  incorrect : bool;
  enabled : bool
}.

Inductive section_name := Home | Quiz | Results.

(** What a [setTimeout] of the script runs. *)
Inductive callback :=
| Feedback (selectedIndex : Z)
| Advance.

(** What awaits the answer of a request. *)
Inductive continuation := InitQuiz | GenerateMore.

(** The body of a request to [/generate-quiz]. *)
Record request := {
  topic : jstring;
  count : Z;
  usedQuestionsText : jstring
}.

Record state := {
  (** the globals of the script *)
  quizData : list Question;
  currentQuestionIndex : Z;
  selectedAnswers : gmap Z Z;
  score : Z;
  timeLeft : Z;
  timerHandle : option positive;
  previousQuestions : list jstring;
  currentTopic : jstring;
  currentCount : Z;
  (** the browser: live [setInterval] handles, the next handle it hands out,
      the [setTimeout] callbacks not yet run, the requests in flight with
      what resumes on their answer, and the bodies sent *)
  intervals : gset positive;
  next_handle : positive;
  timeouts : list (Z * callback);
  pending : list continuation;
  requests : list request;
  (** the page: the section shown, the question text, the option buttons,
      the loading overlay (which a page may lack), the alerts raised and
      the console warnings *)
  active : section_name;
  questionText : jstring;
  buttons : list button;
  has_overlay : bool;
  loading : bool;
  alerts : list jstring;
  warnings : list jstring
}.

(** Field updates. *)

Definition set_quizData (v : list Question) (s : state) : state :=
  Build_state v (currentQuestionIndex s) (selectedAnswers s) (score s)
    (timeLeft s) (timerHandle s) (previousQuestions s) (currentTopic s)
    (currentCount s) (intervals s) (next_handle s) (timeouts s) (pending s)
    (requests s) (active s) (questionText s) (buttons s) (has_overlay s)
    (loading s) (alerts s) (warnings s).

Definition set_currentQuestionIndex (v : Z) (s : state) : state :=
  Build_state (quizData s) v (selectedAnswers s) (score s) (timeLeft s)
    (timerHandle s) (previousQuestions s) (currentTopic s) (currentCount s)
    (intervals s) (next_handle s) (timeouts s) (pending s) (requests s)
    (active s) (questionText s) (buttons s) (has_overlay s) (loading s)
    (alerts s) (warnings s).

Definition set_selectedAnswers (v : gmap Z Z) (s : state) : state :=
  Build_state (quizData s) (currentQuestionIndex s) v (score s) (timeLeft s)
    (timerHandle s) (previousQuestions s) (currentTopic s) (currentCount s)
    (intervals s) (next_handle s) (timeouts s) (pending s) (requests s)
    (active s) (questionText s) (buttons s) (has_overlay s) (loading s)
    (alerts s) (warnings s).

Definition set_score (v : Z) (s : state) : state :=
  Build_state (quizData s) (currentQuestionIndex s) (selectedAnswers s) v
    (timeLeft s) (timerHandle s) (previousQuestions s) (currentTopic s)
    (currentCount s) (intervals s) (next_handle s) (timeouts s) (pending s)
    (requests s) (active s) (questionText s) (buttons s) (has_overlay s)
    (loading s) (alerts s) (warnings s).

Definition set_timeLeft (v : Z) (s : state) : state :=
  Build_state (quizData s) (currentQuestionIndex s) (selectedAnswers s)
    (score s) v (timerHandle s) (previousQuestions s) (currentTopic s)
    (currentCount s) (intervals s) (next_handle s) (timeouts s) (pending s)
    (requests s) (active s) (questionText s) (buttons s) (has_overlay s)
    (loading s) (alerts s) (warnings s).

Definition set_timerHandle (v : option positive) (s : state) : state :=
  Build_state (quizData s) (currentQuestionIndex s) (selectedAnswers s)
    (score s) (timeLeft s) v (previousQuestions s) (currentTopic s)
    (currentCount s) (intervals s) (next_handle s) (timeouts s) (pending s)
    (requests s) (active s) (questionText s) (buttons s) (has_overlay s)
    (loading s) (alerts s) (warnings s).

Definition set_previousQuestions (v : list jstring) (s : state) : state :=
  Build_state (quizData s) (currentQuestionIndex s) (selectedAnswers s)
    (score s) (timeLeft s) (timerHandle s) v (currentTopic s) (currentCount
    s) (intervals s) (next_handle s) (timeouts s) (pending s) (requests s)
    (active s) (questionText s) (buttons s) (has_overlay s) (loading s)
    (alerts s) (warnings s).

Definition set_currentTopic (v : jstring) (s : state) : state :=
  Build_state (quizData s) (currentQuestionIndex s) (selectedAnswers s)
    (score s) (timeLeft s) (timerHandle s) (previousQuestions s) v
    (currentCount s) (intervals s) (next_handle s) (timeouts s) (pending s)
    (requests s) (active s) (questionText s) (buttons s) (has_overlay s)
    (loading s) (alerts s) (warnings s).

Definition set_currentCount (v : Z) (s : state) : state :=
  Build_state (quizData s) (currentQuestionIndex s) (selectedAnswers s)
    (score s) (timeLeft s) (timerHandle s) (previousQuestions s)
    (currentTopic s) v (intervals s) (next_handle s) (timeouts s) (pending
    s) (requests s) (active s) (questionText s) (buttons s) (has_overlay s)
    (loading s) (alerts s) (warnings s).

Definition set_intervals (v : gset positive) (s : state) : state :=
  Build_state (quizData s) (currentQuestionIndex s) (selectedAnswers s)
    (score s) (timeLeft s) (timerHandle s) (previousQuestions s)
    (currentTopic s) (currentCount s) v (next_handle s) (timeouts s)
    (pending s) (requests s) (active s) (questionText s) (buttons s)
    (has_overlay s) (loading s) (alerts s) (warnings s).

Definition set_next_handle (v : positive) (s : state) : state :=
  Build_state (quizData s) (currentQuestionIndex s) (selectedAnswers s)
    (score s) (timeLeft s) (timerHandle s) (previousQuestions s)
    (currentTopic s) (currentCount s) (intervals s) v (timeouts s) (pending
    s) (requests s) (active s) (questionText s) (buttons s) (has_overlay s)
    (loading s) (alerts s) (warnings s).

Definition set_timeouts (v : list (Z * callback)) (s : state) : state :=
  Build_state (quizData s) (currentQuestionIndex s) (selectedAnswers s)
    (score s) (timeLeft s) (timerHandle s) (previousQuestions s)
    (currentTopic s) (currentCount s) (intervals s) (next_handle s) v
    (pending s) (requests s) (active s) (questionText s) (buttons s)
    (has_overlay s) (loading s) (alerts s) (warnings s).

Definition set_pending (v : list continuation) (s : state) : state :=
  Build_state (quizData s) (currentQuestionIndex s) (selectedAnswers s)
    (score s) (timeLeft s) (timerHandle s) (previousQuestions s)
    (currentTopic s) (currentCount s) (intervals s) (next_handle s)
    (timeouts s) v (requests s) (active s) (questionText s) (buttons s)
    (has_overlay s) (loading s) (alerts s) (warnings s).

Definition set_requests (v : list request) (s : state) : state :=
  Build_state (quizData s) (currentQuestionIndex s) (selectedAnswers s)
    (score s) (timeLeft s) (timerHandle s) (previousQuestions s)
    (currentTopic s) (currentCount s) (intervals s) (next_handle s)
    (timeouts s) (pending s) v (active s) (questionText s) (buttons s)
    (has_overlay s) (loading s) (alerts s) (warnings s).

Definition set_active (v : section_name) (s : state) : state :=
  Build_state (quizData s) (currentQuestionIndex s) (selectedAnswers s)
    (score s) (timeLeft s) (timerHandle s) (previousQuestions s)
    (currentTopic s) (currentCount s) (intervals s) (next_handle s)
    (timeouts s) (pending s) (requests s) v (questionText s) (buttons s)
    (has_overlay s) (loading s) (alerts s) (warnings s).

Definition set_questionText (v : jstring) (s : state) : state :=
  Build_state (quizData s) (currentQuestionIndex s) (selectedAnswers s)
    (score s) (timeLeft s) (timerHandle s) (previousQuestions s)
    (currentTopic s) (currentCount s) (intervals s) (next_handle s)
    (timeouts s) (pending s) (requests s) (active s) v (buttons s)
    (has_overlay s) (loading s) (alerts s) (warnings s).

Definition set_buttons (v : list button) (s : state) : state :=
  Build_state (quizData s) (currentQuestionIndex s) (selectedAnswers s)
    (score s) (timeLeft s) (timerHandle s) (previousQuestions s)
    (currentTopic s) (currentCount s) (intervals s) (next_handle s)
    (timeouts s) (pending s) (requests s) (active s) (questionText s) v
    (has_overlay s) (loading s) (alerts s) (warnings s).

Definition set_loading (v : bool) (s : state) : state :=
  Build_state (quizData s) (currentQuestionIndex s) (selectedAnswers s)
    (score s) (timeLeft s) (timerHandle s) (previousQuestions s)
    (currentTopic s) (currentCount s) (intervals s) (next_handle s)
    (timeouts s) (pending s) (requests s) (active s) (questionText s)
    (buttons s) (has_overlay s) v (alerts s) (warnings s).

Definition set_alerts (v : list jstring) (s : state) : state :=
  Build_state (quizData s) (currentQuestionIndex s) (selectedAnswers s)
    (score s) (timeLeft s) (timerHandle s) (previousQuestions s)
    (currentTopic s) (currentCount s) (intervals s) (next_handle s)
    (timeouts s) (pending s) (requests s) (active s) (questionText s)
    (buttons s) (has_overlay s) (loading s) v (warnings s).

Definition set_warnings (v : list jstring) (s : state) : state :=
  Build_state (quizData s) (currentQuestionIndex s) (selectedAnswers s)
    (score s) (timeLeft s) (timerHandle s) (previousQuestions s)
    (currentTopic s) (currentCount s) (intervals s) (next_handle s)
    (timeouts s) (pending s) (requests s) (active s) (questionText s)
    (buttons s) (has_overlay s) (loading s) (alerts s) v.

Notation "s ▷ f" := (f s) (at level 45, left associativity, only parsing).

(** The state when the script has loaded. *)
Definition initial (overlay : bool) : state :=
  {| quizData := []; currentQuestionIndex := 0; selectedAnswers := ∅;
     score := 0; timeLeft := 30; timerHandle := None;
     previousQuestions := []; currentTopic := []; currentCount := 5;
     intervals := ∅; next_handle := 1%positive; timeouts := [];
     pending := []; requests := [];
     active := Home; questionText := []; buttons := [];
     has_overlay := overlay; loading := false; alerts := []; warnings := [] |}.

(** A handler ends normally or by an uncaught exception; either way the
    state it has reached stays. *)
Inductive outcome :=
| Done (s : state)
| Threw (s : state).

Definition and_then (o : outcome) (f : state -> outcome) : outcome :=
  match o with Done s => f s | Threw s => Threw s end.

Definition settle (o : outcome) : state :=
  match o with Done s => s | Threw s => s end.

Notation "o >>> f" := (and_then o f) (at level 46, left associativity).

Definition alert (message : jstring) (s : state) : state :=
  set_alerts (alerts s ++ [message]) s.

Definition showSection (name : section_name) (s : state) : state :=
  set_active name s.

(** ** Timer *)

Definition clearInterval (h : positive) (s : state) : state :=
  set_intervals (intervals s ∖ {[h]}) s.

Definition setInterval (s : state) : positive * state :=
  let h := next_handle s in
  (h, s ▷ set_intervals (intervals s ∪ {[h]}) ▷ set_next_handle (h + 1)%positive).

Definition setTimeout (cb : callback) (delay : Z) (s : state) : state :=
  set_timeouts (timeouts s ++ [(delay, cb)]) s.

Definition startTimer (s : state) : state :=
  let s := set_timeLeft 30 s in
  let s := match timerHandle s with
           | Some h => clearInterval h s
           | None => s
           end in
  let '(h, s) := setInterval s in
  set_timerHandle (Some h) s.

Definition stopTimer (s : state) : state :=
  match timerHandle s with
  | Some h => s ▷ clearInterval h ▷ set_timerHandle None
  | None => s
  end.

Definition resetTimer (s : state) : state := set_timeLeft 30 s.

(** ** Rendering *)

Definition showLoading (on : bool) (message : jstring) (s : state) : state :=
  if has_overlay s then
    if on then
      s ▷ set_loading true
        ▷ set_questionText (if jstring_eqb message [] then lit "Loading..."
                            else message)
        ▷ set_buttons []
    else set_loading false s
  else s.

(** The loop of [q.options.forEach]: one button per option. *)
Fixpoint render_options (opts : list JSON) (idx : N) (s : state) : outcome :=
  match opts with
  | [] => Done s
  | opt :: rest =>
      match toString opt with
      | Ok t =>
          let btn := {| letter := (65 + idx)%N; label := t; selected := false;
                        correct := false; incorrect := false; enabled := true |} in
          render_options rest (idx + 1)%N (set_buttons (buttons s ++ [btn]) s)
      | Throw _ => Threw s
      end
  end.

Definition renderQuestion (s : state) : outcome :=
  if bool_decide (quizData s = []) then
    Done (s ▷ set_questionText
               (lit "No questions loaded. Click Start Quiz to generate.")
            ▷ set_buttons [])
  else
    match index (quizData s) (currentQuestionIndex s) with
    | None => Threw s
    | Some q =>
        let s := s ▷ set_questionText (question q) ▷ set_buttons [] in
        render_options (options q) 0%N s >>> fun s =>
        Done (resetTimer s)
    end.

(** ** Answers *)

Definition onOptionClicked (idx : Z) (s : state) : state :=
  if bool_decide (buttons s = []) then s
  else
    let bs := (fun b => Build_button (letter b) (label b) false (correct b)
                          (incorrect b) (enabled b)) <$> buttons s in
    let bs := match index bs idx with
              | Some _ => alter (fun b => Build_button (letter b) (label b) true
                                   (correct b) (incorrect b) (enabled b))
                            (Z.to_nat idx) bs
              | None => bs
              end in
    s ▷ set_buttons bs
      ▷ set_selectedAnswers (<[currentQuestionIndex s := idx]> (selectedAnswers s))
      ▷ setTimeout (Feedback idx) 400.

Definition showAnswerFeedback (selectedIndex : Z) (s : state) : outcome :=
  match index (quizData s) (currentQuestionIndex s) with
  | None => Threw s
  | Some q =>
      let bs := buttons s in
      let bs := if (0 <=? answer_index q) && bool_decide (is_Some (index bs (answer_index q)))
                then alter (fun b => Build_button (letter b) (label b) (selected b)
                              true (incorrect b) (enabled b))
                       (Z.to_nat (answer_index q)) bs
                else bs in
      let '(bs, sc) :=
        if negb (selectedIndex =? answer_index q) && (0 <=? selectedIndex)
           && bool_decide (is_Some (index bs selectedIndex))
        then (alter (fun b => Build_button (letter b) (label b) (selected b)
                       (correct b) true (enabled b))
                (Z.to_nat selectedIndex) bs, score s)
        else if selectedIndex =? answer_index q then (bs, score s + 1)
        else (bs, score s) in
      let bs := (fun b => Build_button (letter b) (label b) (selected b)
                   (correct b) (incorrect b) false) <$> bs in
      Done (s ▷ set_buttons bs ▷ set_score sc ▷ setTimeout Advance 1200)
  end.

(** ** Navigation *)

Definition finishQuiz (s : state) : state :=
  s ▷ stopTimer ▷ showSection Results.

Definition nextQuestion (s : state) : outcome :=
  let s := stopTimer s in
  if currentQuestionIndex s <? Z.of_nat (length (quizData s)) - 1 then
    renderQuestion (set_currentQuestionIndex (currentQuestionIndex s + 1) s)
    >>> fun s => Done (startTimer s)
  else Done (finishQuiz s).

Definition previousQuestion (s : state) : outcome :=
  if 0 <? currentQuestionIndex s then
    let s := stopTimer s in
    renderQuestion (set_currentQuestionIndex (currentQuestionIndex s - 1) s)
    >>> fun s => Done (startTimer s)
  else Done s.

Definition restartQuiz (s : state) : outcome :=
  let s := s ▷ set_currentQuestionIndex 0 ▷ set_selectedAnswers ∅ ▷ set_score 0 in
  if bool_decide (quizData s = []) then Done s
  else renderQuestion (showSection Quiz s) >>> fun s => Done (startTimer s).

(** The callback of the interval of [startTimer]. *)
Definition tick (s : state) : outcome :=
  let s := set_timeLeft (timeLeft s - 1) s in
  if timeLeft s <=? 0 then showAnswerFeedback (-1) s else Done s.

(** ** Fetching questions *)

(** [q.replace(/\n/g, space)] *)
Definition newlines_to_spaces (q : jstring) : jstring :=
  (fun c => if (c =? 10)%N then 32%N else c) <$> q.

Definition buildUsedQuestionsText (s : state) : jstring :=
  if bool_decide (previousQuestions s = []) then []
  else lit "Do NOT repeat these exact questions: "
       ++ join (lit " || ") (newlines_to_spaces <$> previousQuestions s).

(** [fetchAndAppendQuestions] up to its first [await]: the request leaves
    and [k], the caller to resume, waits for the answer. *)
Definition send (k : continuation) (topic : jstring) (count : Z) (s : state)
  : state :=
  let s := showLoading true (lit "Generating questions" ++ [8230%N]) s in
  let payload := {| topic := topic; count := count;
                    usedQuestionsText := buildUsedQuestionsText s |} in
  s ▷ set_requests (requests s ++ [payload]) ▷ set_pending (pending s ++ [k]).

(** How a request ends: [fetch] or [resp.json()] rejects, or a decoded body
    arrives with [resp.ok]. *)
Inductive fetch_result :=
| Rejected
| Answer (ok : bool) (data : JSON).

(** The [catch] block of [fetchAndAppendQuestions]. *)
Definition caught (s : state) : bool * state :=
  (false, s ▷ alert (lit "Network error while generating quiz.")
            ▷ showLoading false []).

(** The block under [// normalize fields]: the entry pushed for a
    candidate [q] whose trimmed text is [qtext]. *)
Definition normalize_fields (q : JSON) (qtext : jstring) : result Question :=
  o ← prop q "options";
  let options := match isArray o with
                 | Some l => slice l 0 4
                 | None => []
                 end in
  a1 ← prop q "answer_index";
  a2 ← prop q "answerIndex";
  a3 ← prop q "correct";
  let answer_index :=
    match isNumber a1 with
    | Some n => n
    | None => match isNumber a2 with
              | Some n => n
              | None => match isNumber a3 with
                        | Some n => n
                        | None => 0
                        end
              end
    end in
  e ← prop q "explanation";
  Ok {| question := qtext;
        options := options;
        answer_index := Z.max 0 (Z.min 3 answer_index);
        explanation := default (JStr []) (or_else e (Some (JStr []))) |}.

(** [(q.question || empty).trim()] *)
Definition candidate_text (q : JSON) : result jstring :=
  t ← prop q "question";
  match or_else t (Some (JStr [])) with
  | Some (JStr x) => Ok (trim x)
  | _ => Throw TypeError
  end.

(** The duplicate test of the loop. *)
Definition is_dup (qtext : jstring) (s : state) : bool :=
  existsb (fun existing => jstring_eqb (trim (question existing)) qtext)
          (quizData s)
  || bool_decide (qtext ∈ previousQuestions s).

(** The body of [for (const q of arr)]: the state after it and what it adds
    to [added]. *)
Definition append_candidate (q : JSON) (s : state) : result (state * Z) :=
  qtext ← candidate_text q;
  if jstring_eqb qtext [] then Ok (s, 0)
  else if is_dup qtext s then Ok (s, 0)
  else
    entry ← normalize_fields q qtext;
    Ok (s ▷ set_quizData (quizData s ++ [entry])
          ▷ set_previousQuestions (previousQuestions s ++ [qtext]), 1).

(** The whole loop; the flag tells whether an exception ended it. *)
Fixpoint append_all (arr : list JSON) (s : state) (added : Z)
  : state * Z * bool :=
  match arr with
  | [] => (s, added, false)
  | q :: rest =>
      match append_candidate q s with
      | Ok (s', n) => append_all rest s' (added + n)
      | Throw _ => (s, added, true)
      end
  end.

(** [fetchAndAppendQuestions] from the answer on: what it returns and the
    state it leaves. *)
Definition fetchAndAppendQuestions (r : fetch_result) (s : state)
  : bool * state :=
  match r with
  | Rejected => caught s
  | Answer ok data =>
      if negb ok then
        let err :=
          if truthy (Some data) then
            match prop data "error", prop data "message" with
            | Ok e, Ok m =>
                if truthy (or_else e m) then default (JStr []) (or_else e m)
                else JStr (lit "Server error")
            | _, _ => JStr (lit "Server error")
            end
          else JStr (lit "Server error") in
        match toString err with
        | Ok t => (false, s ▷ alert (lit "Failed to generate quiz: " ++ t)
                            ▷ showLoading false [])
        | Throw _ => caught s
        end
      else
        match prop data "questions", prop data "quiz" with
        | Ok a, Ok b =>
            match or_else (or_else a b) (Some (JArr [])) with
            | Some (JArr (q :: rest)) =>
                let '(s, added, threw) := append_all (q :: rest) s 0 in
                if threw then caught s
                else if (added =? 0) && bool_decide (quizData s = []) then
                  (false,
                   s ▷ alert (lit "No new unique questions were generated for that topic. Try a different topic.")
                     ▷ showLoading false [])
                else
                  let s := if added =? 0
                           then set_warnings
                                  (warnings s ++
                                   [lit "Server returned duplicates; no new questions added."]) s
                           else s in
                  (true, showLoading false [] s)
            | _ => (false, s ▷ alert (lit "Server returned no questions.")
                             ▷ showLoading false [])
            end
        | _, _ => caught s
        end
  end.

(** [initQuiz], up to the request and from its answer on. *)
Definition initQuiz_send (topic : jstring) (count : Z) (s : state) : state :=
  s ▷ set_currentTopic topic ▷ set_currentCount count
    ▷ set_previousQuestions [] ▷ set_quizData []
    ▷ set_currentQuestionIndex 0 ▷ set_selectedAnswers ∅
    ▷ showSection Quiz
    ▷ set_questionText (lit "Generating your quiz...") ▷ set_buttons []
    ▷ set_score 0
    ▷ (fun s => send InitQuiz (currentTopic s) (currentCount s) s).

Definition initQuiz_resume (r : fetch_result) (s : state) : outcome :=
  let '(ok, s) := fetchAndAppendQuestions r s in
  if ok then renderQuestion (showSection Quiz s) >>> fun s => Done (startTimer s)
  else Done s.

(** [generateMoreQuestions], with [n] what [parseInt(countInput, 10) || 5]
    gives for the answer to its prompt. *)
Definition generateMoreQuestions_send (n : Z) (s : state) : state :=
  if jstring_eqb (currentTopic s) [] then
    alert (lit "Start a quiz first (choose a topic).") s
  else send GenerateMore (currentTopic s) (Z.min 20 (Z.max 1 n)) s.

Definition generateMoreQuestions_resume (r : fetch_result) (s : state) : state :=
  let '(ok, s) := fetchAndAppendQuestions r s in
  if ok then
    alert (lit "New questions added. They will appear at the end of the quiz.") s
  else s.

(** ** Events *)

Inductive event :=
| ModalStart (topicValue : jstring) (count : Z)
| MoreClicked (n : Z)
| Response (k : nat) (r : fetch_result)
| NextClicked
| PrevClicked
| TryAgainClicked
| BackHomeClicked
| OptionClicked (i : nat)
| KeyDown (key : jstring)
| IntervalFires (h : positive)
| TimeoutFires (k : nat).

(** The click handler of the start button of the set-up dialog; [count] is
    what [parseInt(modal.count.value, 10) || 5] gives. *)
Definition modal_start (topicValue : jstring) (count : Z) (s : state) : state :=
  let topic := trim topicValue in
  if jstring_eqb topic [] then s
  else if (count <? 1) || (20 <? count) then s
  else initQuiz_send topic count s.

Definition keydown (key : jstring) (s : state) : outcome :=
  match active s with
  | Quiz =>
      if bool_decide (key ∈ [lit "1"; lit "2"; lit "3"; lit "4"]) then
        let num := digits_value key - 1 in
        Done (onOptionClicked num s)
      else if jstring_eqb key (lit "ArrowRight") || jstring_eqb key (lit "Enter")
      then nextQuestion s
      else if jstring_eqb key (lit "ArrowLeft") then previousQuestion s
      else Done s
  | _ => Done s
  end.

Definition run_callback (cb : callback) (s : state) : outcome :=
  match cb with
  | Feedback selectedIndex => showAnswerFeedback selectedIndex s
  | Advance => nextQuestion s
  end.

(** One turn of the event loop. An event that cannot occur in the state (a
    click on a button that is absent or takes no pointer events, a handle
    that is not live, a request or timeout that is not waiting) leaves it
    as it is. *)
Definition step (e : event) (s : state) : state :=
  match e with
  | ModalStart topicValue count => modal_start topicValue count s
  | MoreClicked n => generateMoreQuestions_send n s
  | Response k r =>
      match pending s !! k with
      | Some InitQuiz =>
          settle (initQuiz_resume r (set_pending (delete k (pending s)) s))
      | Some GenerateMore =>
          generateMoreQuestions_resume r (set_pending (delete k (pending s)) s)
      | None => s
      end
  | NextClicked => settle (nextQuestion s)
  | PrevClicked => settle (previousQuestion s)
  | TryAgainClicked => settle (restartQuiz s)
  | BackHomeClicked => showSection Home s
  | OptionClicked i =>
      match buttons s !! i with
      | Some b => if enabled b then onOptionClicked (Z.of_nat i) s else s
      | None => s
      end
  | KeyDown key => settle (keydown key s)
  | IntervalFires h =>
      if bool_decide (h ∈ intervals s) then settle (tick s) else s
  | TimeoutFires k =>
      match timeouts s !! k with
      | Some (_, cb) => settle (run_callback cb (set_timeouts (delete k (timeouts s)) s))
      | None => s
      end
  end.

Definition run (evs : list event) (s : state) : state :=
  foldl (fun s e => step e s) s evs.

(** ** Invariants of the session *)

(** The texts of the session questions are pairwise distinct after
    trimming, so are the entries of the ledger, and the ledger lists the
    texts of the session questions in their order; the entries are trimmed
    and not empty. *)
Definition ledger_ok (s : state) : Prop :=
  NoDup (trim <$> (question <$> quizData s))
  /\ NoDup (trim <$> previousQuestions s)
  /\ previousQuestions s = question <$> quizData s
  /\ Forall (fun t => trim t = t /\ t <> []) (previousQuestions s).

(** Every stored answer index is one of 0, 1, 2, 3. *)
Definition range_ok (s : state) : Prop :=
  Forall (fun q => 0 <= answer_index q <= 3) (quizData s).

(** The live intervals are exactly the one [timerHandle] names, if any. *)
Definition timer_ok (s : state) : Prop :=
  intervals s = match timerHandle s with Some h => {[h]} | None => ∅ end.

Definition invariant (s : state) : Prop :=
  ledger_ok s /\ range_ok s /\ timer_ok s.

(** What the feedback for the selection [sel], on a question whose answer
    index is [ai], makes of the button at position [i]. *)
Definition marked (ai sel : Z) (i : nat) (b : button) : button :=
  {| letter := letter b; label := label b; selected := selected b;
     correct := correct b || bool_decide (Z.of_nat i = ai);
     incorrect := incorrect b
                  || (bool_decide (Z.of_nat i = sel) && negb (sel =? ai));
     enabled := false |}.

(** The session proper: question list, position, score, ledger, recorded
    selections, and the timer. *)
Definition session (s : state) :=
  (quizData s, currentQuestionIndex s, score s, previousQuestions s,
   selectedAnswers s, (timeLeft s, timerHandle s, intervals s)).

End Client.

(** ** From the server's reply to the client's [fetch] *)

Module Wire.
Import JS.

(** The response the client decodes for a reply of the handler: the body
    of a 200 reply is the same in both variants, the error bodies are those
    of the first. *)
Definition deliver (r : Server.reply) : Client.fetch_result :=
  match r with
  | Server.Reply200 questions => Client.Answer true (Server.reply_body questions)
  | Server.Reply400 message =>
      Client.Answer false (JObj [(lit "error", JStr message)])
  | Server.Reply500 (Failure message raw) =>
      Client.Answer false
        (JObj ([(lit "error", JStr (lit "Server error"));
                (lit "details", JStr message)]
               ++ match raw with
                  | Some t => [(lit "raw", JStr t)]
                  | None => []
                  end))
  | Server.Reply500 _ =>
      Client.Answer false (JObj [(lit "error", JStr (lit "Server error"))])
  | Server.Reply502 =>
      Client.Answer false
        (JObj [(lit "error", JStr (lit "No supported models available"))])
  end.

End Wire.

(** * Properties *)

(** ** Strings *)

Module JSFacts.
Import JS.

Lemma jstring_eqb_true (a b : jstring) : jstring_eqb a b = true <-> a = b.
Proof. unfold jstring_eqb. apply bool_decide_eq_true. Qed.

Lemma jstring_eqb_false (a b : jstring) : jstring_eqb a b = false <-> a <> b.
Proof. unfold jstring_eqb. apply bool_decide_eq_false. Qed.

Lemma trimStart_head (s : jstring) :
  trimStart s = [] \/ exists c t, trimStart s = c :: t /\ is_ws c = false.
Proof.
  induction s as [|c t IH]; simpl; [by left|].
  destruct (is_ws c) eqn:E; [done|]. right. by exists c, t.
Qed.

Lemma trimStart_fixed (c : N) (t : jstring) :
  is_ws c = false -> trimStart (c :: t) = c :: t.
Proof. intros E. simpl. by rewrite E. Qed.

Lemma trimStart_snoc (s : jstring) (c : N) :
  is_ws c = false -> trimStart (s ++ [c]) = trimStart s ++ [c].
Proof.
  intros E. induction s as [|d t IH]; simpl.
  - by rewrite E.
  - destruct (is_ws d); [done|done].
Qed.

Lemma trimEnd_cons (c : N) (t : jstring) :
  is_ws c = false -> trimEnd (c :: t) = c :: trimEnd t.
Proof.
  intros E. unfold trimEnd. rewrite reverse_cons, trimStart_snoc by done.
  by rewrite reverse_app.
Qed.

Lemma trimStart_idem (s : jstring) : trimStart (trimStart s) = trimStart s.
Proof.
  destruct (trimStart_head s) as [->|(c & t & -> & E)]; [done|].
  by apply trimStart_fixed.
Qed.

Lemma trimEnd_idem (s : jstring) : trimEnd (trimEnd s) = trimEnd s.
Proof.
  unfold trimEnd. by rewrite reverse_involutive, trimStart_idem.
Qed.

(** Trimming a trimmed string changes nothing. *)
Lemma trim_idem (s : jstring) : trim (trim s) = trim s.
Proof.
  unfold trim.
  destruct (trimStart_head s) as [->|(c & t & -> & E)]; [done|].
  rewrite trimEnd_cons by done. rewrite trimStart_fixed by done.
  rewrite <- trimEnd_cons by done. apply trimEnd_idem.
Qed.

End JSFacts.

(** ** The server *)

Module ServerFacts.
Import JS JSFacts Server.

Ltac inv_binds H :=
  repeat match type of H with
         | context [mbind _ ?x] =>
             destruct x eqn:?; simpl in H; try discriminate H
         end.

Lemma slice_take {A} (l : list A) (e : Z) :
  0 <= e -> slice l 0 e = take (Z.to_nat e) l.
Proof.
  intros He. unfold slice, slice_pos.
  replace (0 <? 0) with false by done.
  destruct (Z.ltb_spec e 0); [lia|].
  rewrite (Z.min_l 0) by lia. rewrite Z.sub_0_r.
  change (drop (Z.to_nat 0) l) with l.
  destruct (decide (e <= Z.of_nat (length l))).
  - by rewrite Z.min_l by lia.
  - rewrite Z.min_r by lia. rewrite Nat2Z.id.
    rewrite (take_ge l (length l)) by lia. by rewrite take_ge by lia.
Qed.

Lemma pad_length (o : list jstring) :
  (length o <= 4)%nat -> length (pad o) = 4%nat.
Proof. intros H. unfold pad. rewrite length_app, length_replicate. lia. Qed.

(** The first variant always hands on exactly four options. *)
Lemma ensure_four_length (o : list jstring) : length (ensure_four o) = 4%nat.
Proof.
  unfold ensure_four.
  destruct (Nat.ltb_spec (length o) 4).
  - rewrite slice_take by lia. rewrite length_take, pad_length; lia.
  - destruct (Nat.ltb_spec 4 (length o)).
    + rewrite slice_take by lia. rewrite length_take. lia.
    + lia.
Qed.

Lemma ensure_four_id (o : list jstring) :
  length o = 4%nat -> ensure_four o = o.
Proof.
  intros H. unfold ensure_four.
  destruct (Nat.ltb_spec (length o) 4); [lia|].
  destruct (Nat.ltb_spec 4 (length o)); [lia|done].
Qed.

Lemma normalize_item_four_options (it : JSON) (q : Question) :
  normalize_item it = Ok q -> length (options q) = 4%nat.
Proof.
  unfold normalize_item. intros H.
  destruct it; simpl in H; try discriminate; inv_binds H.
  all: injection H as <-; simpl; first [apply ensure_four_length | reflexivity].
Qed.

Lemma map_items_Forall2 (f : JSON -> result Question) (l : list JSON)
    (qs : list Question) :
  map_items f l = Ok qs <-> Forall2 (fun it q => f it = Ok q) l qs.
Proof.
  revert qs. induction l as [|it l IH]; intros qs; simpl.
  - split.
    + intros [= <-]. constructor.
    + intros H. by inversion H.
  - split.
    + intros H. inv_binds H. injection H as <-.
      constructor; [done|]. by apply IH.
    + intros H. inversion H as [|? q ? qs' Hq Hr]; subst.
      rewrite Hq. simpl. apply IH in Hr. rewrite Hr. done.
Qed.

Lemma map_String_strings (opts : list JSON) :
  forallb (fun o => match o with JStr _ => true | _ => false end) opts = true ->
  exists ss, opts = JStr <$> ss /\ map_String opts = Ok ss.
Proof.
  induction opts as [|o opts IH]; simpl; intros H.
  - by exists [].
  - apply andb_prop in H as [Ho Hr]. destruct o; try discriminate.
    destruct (IH Hr) as (ss & -> & E). exists (s :: ss). split; [done|].
    simpl. by rewrite E.
Qed.

Lemma or_else_truthy (a b : option JSON) : truthy a = true -> or_else a b = a.
Proof. intros H. unfold or_else. by rewrite H. Qed.

Lemma or_else_falsy (a b : option JSON) : truthy a = false -> or_else a b = b.
Proof. intros H. unfold or_else. by rewrite H. Qed.

Lemma normalize_item_well_formed (it : JSON) :
  well_formed it = true ->
  exists q, normalize_item it = Ok q /\ kept it q /\ usable q = true.
Proof.
  unfold well_formed. intros H.
  destruct it as [| | | | |fields]; try discriminate.
  destruct (own fields (lit "question")) as [[| | |t| |]|] eqn:Eq; try discriminate.
  destruct (own fields (lit "options")) as [[| | | |opts|]|] eqn:Eo; try discriminate.
  destruct (own fields (lit "answer_index")) as [[| |k| | |]|] eqn:Ea; try discriminate.
  apply andb_prop in H as [H He]. apply andb_prop in H as [H Hs].
  apply andb_prop in H as [Ht Hl].
  apply bool_decide_eq_true in Hl. apply negb_true_iff in Ht.
  destruct (map_String_strings opts Hs) as (ss & -> & Ems).
  rewrite length_fmap in Hl.
  assert (Htruthy : truthy (Some (JStr t)) = true).
  { simpl. apply negb_true_iff, jstring_eqb_false. intros ->.
    by apply jstring_eqb_false in Ht. }
  assert (Hexp : exists e,
             (match own fields (lit "explanation") with
              | Some v => if truthy (own fields (lit "explanation"))
                          then toString v else Ok []
              | None => Ok []
              end) = Ok e).
  { destruct (own fields (lit "explanation")) as [[| | |e| |]|]; try discriminate.
    - simpl. destruct (negb (jstring_eqb e [])); eauto.
    - eauto. }
  destruct Hexp as [e Hexp].
  exists {| question := trim t; options := ss; answer_index := k;
            explanation := e |}.
  split; [|split].
  - unfold normalize_item, prop. cbn [mbind result_bind].
    rewrite Eq, Eo, Ea. rewrite !(or_else_truthy (Some (JStr t))) by done.
    cbn [toString isArray mbind result_bind]. rewrite Ems.
    cbn [mbind result_bind isNumber]. rewrite Hexp.
    cbn [mbind result_bind]. by rewrite ensure_four_id.
  - exists fields, t. simpl. by rewrite Eq, Eo, Ea.
  - unfold usable. simpl. rewrite Ht, Hl. done.
Qed.

Lemma normalize_all_well_formed (items : list JSON) :
  Forall (fun it => well_formed it = true) items ->
  exists qs, map_items normalize_item items = Ok qs
             /\ Forall2 kept items qs
             /\ Forall (fun q => usable q = true) qs.
Proof.
  induction 1 as [|it items Hit _ (qs & Hm & Hk & Hu)].
  - exists []. by repeat split; constructor.
  - destruct (normalize_item_well_formed it Hit) as (q & Hq & Hkq & Huq).
    exists (q :: qs). simpl. rewrite Hq. simpl. rewrite Hm. simpl.
    by repeat split; constructor.
Qed.

Lemma filter_all {A} (P : A -> Prop) `{forall x, Decision (P x)} (l : list A) :
  Forall P l -> filter P l = l.
Proof.
  induction 1 as [|x l Hx _ IH]; [done|].
  rewrite filter_cons. destruct (decide (P x)); [|done]. by rewrite IH.
Qed.


(** Two well-formed items, as a provider sends them. *)
Definition sample_items : list JSON :=
  [ JObj [ (lit "question", JStr (lit "Which keyword defines a function?"));
           (lit "options", JArr [JStr (lit "def"); JStr (lit "fun");
                                 JStr (lit "func"); JStr (lit "lambda")]);
           (lit "answer_index", JNum 0);
           (lit "explanation", JStr (lit "def introduces a function.")) ];
    JObj [ (lit "question", JStr (lit "Which type is immutable?"));
           (lit "options", JArr [JStr (lit "list"); JStr (lit "dict");
                                 JStr (lit "set"); JStr (lit "tuple")]);
           (lit "answer_index", JNum 3) ] ].


(** *** Texts without a parseable payload *)

Section Unparseable.
Variable JSON_parse : jstring -> option JSON.

(** When [extractJsonFromText] returns null. *)
Lemma extractJsonFromText_None (rawText : jstring) :
  extractJsonFromText JSON_parse rawText = None
  <-> rawText = []
      \/ indexOf rawText (lit "```json") = -1
      \/ lastIndexOf rawText (lit "```") = -1
      \/ JSON_parse (trim (slice rawText (indexOf rawText (lit "```json") + 7)
                             (lastIndexOf rawText (lit "```")))) = None.
Proof.
  unfold extractJsonFromText.
  destruct (jstring_eqb rawText []) eqn:E.
  { apply jstring_eqb_true in E. naive_solver. }
  apply jstring_eqb_false in E.
  destruct (Z.eqb_spec (indexOf rawText (lit "```json")) (-1)) as [E1|E1];
    simpl; [naive_solver|].
  destruct (Z.eqb_spec (lastIndexOf rawText (lit "```")) (-1)) as [E2|E2];
    simpl; naive_solver.
Qed.


End Unparseable.

(** A model answer without any JSON in it. *)
Definition apology : jstring := lit "Sorry, I cannot write a quiz on that.".



End ServerFacts.

(** ** The browser script *)

Module ClientFacts.
Import JS JSFacts Client.

(** *** What the handlers leave alone *)

(** The question list, the ledger and the timer of a state. *)
Definition frame (s : state) :=
  (quizData s, previousQuestions s, timerHandle s, intervals s).

Definition core (s : state) := (quizData s, previousQuestions s).

Lemma frame_core (s s' : state) : frame s' = frame s -> core s' = core s.
Proof. unfold frame, core. congruence. Qed.

Lemma frame_timer_ok (s s' : state) :
  frame s' = frame s -> timer_ok s -> timer_ok s'.
Proof. unfold frame, timer_ok. intros [= _ _ -> ->]. done. Qed.

Lemma core_ledger_ok (s s' : state) :
  core s' = core s -> ledger_ok s -> ledger_ok s'.
Proof. unfold core, ledger_ok. intros [= -> ->]. done. Qed.

Lemma core_range_ok (s s' : state) :
  core s' = core s -> range_ok s -> range_ok s'.
Proof. unfold core, range_ok. intros [= -> _]. done. Qed.

Lemma render_options_buttons (opts : list JSON) (i : N) (s : state) :
  exists bs, settle (render_options opts i s) = set_buttons bs s.
Proof.
  revert i s. induction opts as [|o opts IH]; intros i s; simpl.
  - exists (buttons s). by destruct s.
  - destruct (toString o) as [t|].
    + edestruct IH as [bs Hbs]. exists bs. rewrite Hbs. done.
    + exists (buttons s). by destruct s.
Qed.

Lemma renderQuestion_frame (s : state) :
  frame (settle (renderQuestion s)) = frame s.
Proof.
  unfold renderQuestion. case_bool_decide; [done|].
  destruct (index (quizData s) (currentQuestionIndex s)) as [q|]; [|done].
  simpl.
  match goal with
  | |- context [render_options ?o ?i ?s0] =>
      destruct (render_options_buttons o i s0) as [bs Hbs]
  end.
  destruct (render_options _ _ _); simpl in *; rewrite Hbs; done.
Qed.

Lemma showAnswerFeedback_frame (i : Z) (s : state) :
  frame (settle (showAnswerFeedback i s)) = frame s.
Proof.
  unfold showAnswerFeedback. repeat case_match; simpl; done.
Qed.

Lemma onOptionClicked_frame (i : Z) (s : state) :
  frame (onOptionClicked i s) = frame s.
Proof. unfold onOptionClicked. repeat case_match; done. Qed.

Lemma showLoading_frame (on : bool) (m : jstring) (s : state) :
  frame (showLoading on m s) = frame s.
Proof. unfold showLoading. repeat case_match; done. Qed.

Lemma send_frame k t c (s : state) : frame (send k t c s) = frame s.
Proof. unfold send, showLoading. repeat case_match; done. Qed.

(** *** The timer *)

Lemma stopTimer_core (s : state) : core (stopTimer s) = core s.
Proof. unfold stopTimer. by case_match. Qed.

Lemma startTimer_core (s : state) : core (startTimer s) = core s.
Proof. unfold startTimer. simpl. by case_match. Qed.

Lemma stopTimer_stops (s : state) :
  timer_ok s -> intervals (stopTimer s) = ∅ /\ timerHandle (stopTimer s) = None.
Proof.
  unfold timer_ok, stopTimer. intros H.
  destruct (timerHandle s) as [h|] eqn:E; simpl; [|by rewrite E].
  rewrite H. split; [set_solver|done].
Qed.

Lemma stopTimer_timer_ok (s : state) : timer_ok s -> timer_ok (stopTimer s).
Proof.
  intros H. destruct (stopTimer_stops s H) as [Hi Hh].
  unfold timer_ok. by rewrite Hi, Hh.
Qed.

Lemma startTimer_starts (s : state) :
  timer_ok s ->
  intervals (startTimer s) = {[next_handle s]}
  /\ timerHandle (startTimer s) = Some (next_handle s).
Proof.
  unfold timer_ok, startTimer. intros H. simpl.
  destruct (timerHandle s) as [h|] eqn:E; simpl; rewrite H;
    (split; [set_solver|done]).
Qed.

Lemma startTimer_timer_ok (s : state) : timer_ok s -> timer_ok (startTimer s).
Proof.
  intros H. destruct (startTimer_starts s H) as [Hi Hh].
  unfold timer_ok. by rewrite Hi, Hh.
Qed.

(** [renderQuestion] followed by [startTimer], as the navigation does. *)
Lemma render_then_start (s : state) :
  let s' := settle (renderQuestion s >>> fun s => Done (startTimer s)) in
  core s' = core s /\ (timer_ok s -> timer_ok s').
Proof.
  pose proof (renderQuestion_frame s) as Hf.
  destruct (renderQuestion s) as [s1|s1]; simpl in *.
  - split.
    + rewrite startTimer_core. by apply frame_core.
    + intros H. apply startTimer_timer_ok. by apply (frame_timer_ok s).
  - split; [by apply frame_core|by apply frame_timer_ok].
Qed.

Lemma finishQuiz_ok (s : state) :
  core (finishQuiz s) = core s /\ (timer_ok s -> timer_ok (finishQuiz s)).
Proof.
  unfold finishQuiz, showSection. split.
  - apply (stopTimer_core s).
  - intros H. apply (stopTimer_timer_ok s H).
Qed.

Lemma nextQuestion_ok (s : state) :
  core (settle (nextQuestion s)) = core s
  /\ (timer_ok s -> timer_ok (settle (nextQuestion s))).
Proof.
  unfold nextQuestion. case_match.
  - edestruct render_then_start as [Hc Ht]. split.
    + rewrite Hc. apply (stopTimer_core s).
    + intros Hok. apply Ht. apply (stopTimer_timer_ok s Hok).
  - simpl. destruct (finishQuiz_ok (stopTimer s)) as [Hc Ht]. split.
    + rewrite Hc. apply stopTimer_core.
    + intros Hok. by apply Ht, stopTimer_timer_ok.
Qed.

Lemma previousQuestion_ok (s : state) :
  core (settle (previousQuestion s)) = core s
  /\ (timer_ok s -> timer_ok (settle (previousQuestion s))).
Proof.
  unfold previousQuestion. case_match; [|done].
  edestruct render_then_start as [Hc Ht]. split.
  - rewrite Hc. apply (stopTimer_core s).
  - intros Hok. apply Ht. apply (stopTimer_timer_ok s Hok).
Qed.

Lemma restartQuiz_ok (s : state) :
  core (settle (restartQuiz s)) = core s
  /\ (timer_ok s -> timer_ok (settle (restartQuiz s))).
Proof.
  unfold restartQuiz. case_bool_decide; [done|].
  edestruct render_then_start as [Hc Ht]. split.
  - by rewrite Hc.
  - intros Hok. by apply Ht.
Qed.

Lemma tick_frame (s : state) : frame (settle (tick s)) = frame s.
Proof.
  unfold tick. case_match; [|done]. by rewrite showAnswerFeedback_frame.
Qed.

(** *** Appending candidates *)

Definition tview (s : state) := (timerHandle s, intervals s).

Lemma tview_timer_ok (s s' : state) :
  tview s' = tview s -> timer_ok s -> timer_ok s'.
Proof. unfold tview, timer_ok. intros E. injection E as -> ->. done. Qed.

Lemma frame_tview (s s' : state) : frame s' = frame s -> tview s' = tview s.
Proof. unfold frame, tview. congruence. Qed.

Lemma candidate_text_trimmed (q : JSON) (qtext : jstring) :
  candidate_text q = Ok qtext -> trim qtext = qtext.
Proof.
  unfold candidate_text. intros H.
  destruct (prop q "question") as [t|]; simpl in H; [|done].
  destruct (or_else t (Some (JStr []))) as [[| | |x| |]|]; try done.
  injection H as <-. apply trim_idem.
Qed.

Lemma normalize_fields_spec (q : JSON) (qtext : jstring) (entry : Question) :
  normalize_fields q qtext = Ok entry ->
  question entry = qtext
  /\ 0 <= answer_index entry <= 3
  /\ (length (options entry) <= 4)%nat.
Proof.
  unfold normalize_fields. intros H.
  destruct q; simpl in H; try discriminate; injection H as <-; simpl.
  all: repeat split; try lia.
  match goal with |- context [isArray ?o] => destruct (isArray o) end;
    simpl; [|lia].
  rewrite ServerFacts.slice_take by lia. rewrite length_take. lia.
Qed.

Lemma is_dup_false (qtext : jstring) (s : state) :
  is_dup qtext s = false ->
  (qtext ∉ trim <$> (question <$> quizData s))
  /\ (qtext ∉ previousQuestions s).
Proof.
  unfold is_dup. intros H. apply orb_false_elim in H as [He Hp].
  apply bool_decide_eq_false in Hp. split; [|done].
  intros Hin. apply list_elem_of_fmap in Hin as (t & -> & Hin).
  apply list_elem_of_fmap in Hin as (e & -> & Hin).
  apply not_true_iff_false in He. apply He.
  apply existsb_exists. exists e. split.
  - by apply list_elem_of_In.
  - by apply jstring_eqb_true.
Qed.

(** What one turn of the loop does: nothing, or one entry pushed on the
    question list with its text pushed on the ledger, the text being new to
    both. *)
Lemma append_candidate_spec (q : JSON) (s s' : state) (n : Z) :
  append_candidate q s = Ok (s', n) ->
  (s' = s /\ n = 0)
  \/ (n = 1 /\ exists qtext entry,
         candidate_text q = Ok qtext
         /\ qtext <> []
         /\ (qtext ∉ trim <$> (question <$> quizData s))
         /\ (qtext ∉ previousQuestions s)
         /\ normalize_fields q qtext = Ok entry
         /\ s' = s ▷ set_quizData (quizData s ++ [entry])
                   ▷ set_previousQuestions (previousQuestions s ++ [qtext])).
Proof.
  unfold append_candidate. intros H.
  destruct (candidate_text q) as [qtext|] eqn:Et; simpl in H; [|done].
  destruct (jstring_eqb qtext []) eqn:Ee.
  { injection H as <- <-. by left. }
  destruct (is_dup qtext s) eqn:Ed.
  { injection H as <- <-. by left. }
  destruct (normalize_fields q qtext) as [entry|] eqn:En; simpl in H; [|done].
  injection H as <- <-. right. split; [done|].
  exists qtext, entry. apply jstring_eqb_false in Ee.
  apply is_dup_false in Ed as [? ?]. done.
Qed.

Lemma append_candidate_ok (q : JSON) (s s' : state) (n : Z) :
  append_candidate q s = Ok (s', n) ->
  tview s' = tview s
  /\ (ledger_ok s -> ledger_ok s')
  /\ (range_ok s -> range_ok s').
Proof.
  intros H. apply append_candidate_spec in H
    as [[-> _]|(_ & qtext & entry & Ht & Hne & Hq & Hp & Hn & ->)]; [done|].
  apply candidate_text_trimmed in Ht.
  apply normalize_fields_spec in Hn as (Hqe & Hr & _).
  split; [done|]. split.
  - intros (Hq1 & Hp1 & Hsync & Hfix). unfold ledger_ok. simpl.
    rewrite !fmap_app. simpl. rewrite Hqe, Ht. repeat split.
    + apply NoDup_app. repeat split; [done| |apply NoDup_singleton].
      intros x Hx Hx'. apply list_elem_of_singleton in Hx' as ->. done.
    + apply NoDup_app. repeat split; [done| |apply NoDup_singleton].
      intros x Hx Hx'. apply list_elem_of_singleton in Hx' as ->.
      apply list_elem_of_fmap in Hx as (p & Hp' & Hin).
      rewrite Forall_forall in Hfix. destruct (Hfix p Hin) as [Hfp _].
      rewrite Hfp in Hp'. by subst.
    + by rewrite Hsync.
    + apply Forall_app. split; [done|]. by apply Forall_singleton.
  - unfold range_ok. simpl. intros Ho. apply Forall_app. split; [done|].
    by apply Forall_singleton.
Qed.

Lemma append_all_ok (arr : list JSON) (s s' : state) (a a' : Z) (t : bool) :
  append_all arr s a = (s', a', t) ->
  tview s' = tview s
  /\ (ledger_ok s -> ledger_ok s')
  /\ (range_ok s -> range_ok s')
  /\ a <= a'
  /\ (a' = a -> s' = s).
Proof.
  revert s a. induction arr as [|q arr IH]; intros s a H; simpl in H.
  - injection H as <- <- <-.
    split; [done|]. split; [done|]. split; [done|]. split; [lia|done].
  - destruct (append_candidate q s) as [[s1 n]|] eqn:Eq.
    + pose proof (append_candidate_ok _ _ _ _ Eq) as (Ht1 & Hl1 & Hr1).
      apply IH in H as (Ht2 & Hl2 & Hr2 & Hle & Hsame).
      apply append_candidate_spec in Eq as [[-> ->]|[-> _]].
      * split; [done|]. split; [done|]. split; [done|]. split; [lia|].
        intros E. apply Hsame. lia.
      * split; [congruence|]. split; [auto|]. split; [auto|]. split; lia.
    + injection H as <- <- <-.
      split; [done|]. split; [done|]. split; [done|]. split; [lia|done].
Qed.

Lemma fetchAndAppendQuestions_ok (r : fetch_result) (s s' : state) (ok : bool) :
  fetchAndAppendQuestions r s = (ok, s') ->
  tview s' = tview s
  /\ (ledger_ok s -> ledger_ok s')
  /\ (range_ok s -> range_ok s').
Proof.
  unfold fetchAndAppendQuestions, caught, alert. intros H.
  assert (Hkeep : forall (s0 s1 : state), frame s1 = frame s0 ->
            tview s1 = tview s0 /\ (ledger_ok s0 -> ledger_ok s1)
            /\ (range_ok s0 -> range_ok s1)).
  { intros s0 s1 Hf. pose proof (frame_core _ _ Hf) as Hc.
    split; [by apply frame_tview|].
    split; [by apply core_ledger_ok|by apply core_range_ok]. }
  assert (Htrans : forall (s0 s1 : state),
            (tview s1 = tview s0 /\ (ledger_ok s0 -> ledger_ok s1)
             /\ (range_ok s0 -> range_ok s1)) ->
            frame s' = frame s1 ->
            tview s' = tview s0 /\ (ledger_ok s0 -> ledger_ok s')
            /\ (range_ok s0 -> range_ok s')).
  { intros s0 s1 (Ht & Hl & Hr) Hf. destruct (Hkeep _ _ Hf) as (Ht' & Hl' & Hr').
    split; [congruence|]. split; auto. }
  destruct r as [|okr data].
  { injection H as <- <-. apply Hkeep. by rewrite showLoading_frame. }
  destruct (negb okr).
  { repeat case_match; injection H as <- <-; apply Hkeep;
      by rewrite showLoading_frame. }
  destruct (prop data "questions") as [a|]; [|discriminate || idtac].
  2:{ injection H as <- <-. apply Hkeep. by rewrite showLoading_frame. }
  destruct (prop data "quiz") as [b|].
  2:{ injection H as <- <-. apply Hkeep. by rewrite showLoading_frame. }
  destruct (or_else (or_else a b) (Some (JArr []))) as [[| | | |[|q rest]|]|];
    try (injection H as <- <-; apply Hkeep; by rewrite showLoading_frame).
  destruct (append_all (q :: rest) s 0) as [[s1 added] threw] eqn:Ea.
  apply append_all_ok in Ea as (Ht & Hl & Hr & _ & _).
  repeat case_match; injection H as <- <-;
    apply (Htrans s s1); try done; by rewrite showLoading_frame.
Qed.

(** *** The invariant along the events *)

Lemma invariant_initial (overlay : bool) : invariant (initial overlay).
Proof.
  repeat split; try constructor. all: simpl; constructor.
Qed.

(** A handler that keeps the lists and the shape of the timer keeps the
    invariant. *)
Lemma invariant_kept (s s' : state) :
  core s' = core s -> (timer_ok s -> timer_ok s') ->
  invariant s -> invariant s'.
Proof.
  intros Hc Ht (Hl & Hr & Hk). split; [by apply (core_ledger_ok s)|].
  split; [by apply (core_range_ok s)|auto].
Qed.

Lemma invariant_frame (s s' : state) :
  frame s' = frame s -> invariant s -> invariant s'.
Proof.
  intros Hf. apply invariant_kept; [by apply frame_core|].
  by apply frame_timer_ok.
Qed.

Lemma initQuiz_send_invariant (t : jstring) (c : Z) (s : state) :
  invariant s -> invariant (initQuiz_send t c s).
Proof.
  intros (_ & _ & Hk). unfold initQuiz_send.
  match goal with
  | |- invariant (send ?k ?a ?b ?s0) =>
      apply (invariant_frame s0); [apply send_frame|]
  end.
  repeat split; try constructor. exact Hk.
Qed.

Lemma fetch_invariant (r : fetch_result) (s s' : state) (ok : bool) :
  fetchAndAppendQuestions r s = (ok, s') -> invariant s -> invariant s'.
Proof.
  intros H (Hl & Hr & Hk).
  apply fetchAndAppendQuestions_ok in H as (Ht & Hl' & Hr').
  split; [auto|]. split; [auto|]. by apply (tview_timer_ok s).
Qed.

Lemma initQuiz_resume_invariant (r : fetch_result) (s : state) :
  invariant s -> invariant (settle (initQuiz_resume r s)).
Proof.
  intros H. unfold initQuiz_resume.
  destruct (fetchAndAppendQuestions r s) as [ok s1] eqn:E.
  apply fetch_invariant in E; [|done]. destruct ok; [|done].
  edestruct render_then_start as [Hc Ht].
  eapply invariant_kept; [exact Hc|exact Ht|done].
Qed.

Lemma generateMoreQuestions_resume_invariant (r : fetch_result) (s : state) :
  invariant s -> invariant (generateMoreQuestions_resume r s).
Proof.
  intros H. unfold generateMoreQuestions_resume.
  destruct (fetchAndAppendQuestions r s) as [ok s1] eqn:E.
  apply fetch_invariant in E; [|done]. by destruct ok.
Qed.

Lemma keydown_invariant (key : jstring) (s : state) :
  invariant s -> invariant (settle (keydown key s)).
Proof.
  intros H. unfold keydown. repeat case_match; try done.
  - simpl. apply (invariant_frame s); [apply onOptionClicked_frame|done].
  - destruct (nextQuestion_ok s). by apply (invariant_kept s).
  - destruct (previousQuestion_ok s). by apply (invariant_kept s).
Qed.

Lemma step_invariant (e : event) (s : state) :
  invariant s -> invariant (step e s).
Proof.
  intros H. destruct e; simpl.
  - unfold modal_start. repeat case_match; try done.
    by apply initQuiz_send_invariant.
  - unfold generateMoreQuestions_send. case_match; [done|].
    apply (invariant_frame s); [apply send_frame|done].
  - destruct (pending s !! k) as [[|]|]; [| |done].
    + by apply initQuiz_resume_invariant.
    + by apply generateMoreQuestions_resume_invariant.
  - destruct (nextQuestion_ok s). by apply (invariant_kept s).
  - destruct (previousQuestion_ok s). by apply (invariant_kept s).
  - destruct (restartQuiz_ok s). by apply (invariant_kept s).
  - done.
  - repeat case_match; try done.
    apply (invariant_frame s); [apply onOptionClicked_frame|done].
  - by apply keydown_invariant.
  - case_bool_decide; [|done]. apply (invariant_frame s); [apply tick_frame|done].
  - destruct (timeouts s !! k) as [[d cb]|]; [|done].
    destruct cb; simpl.
    + match goal with
      | |- invariant (settle (showAnswerFeedback ?i ?s0)) =>
          apply (invariant_frame s0); [apply showAnswerFeedback_frame|done]
      end.
    + match goal with
      | |- invariant (settle (nextQuestion ?s0)) =>
          destruct (nextQuestion_ok s0); by apply (invariant_kept s0)
      end.
Qed.

(** Every state the script reaches satisfies the invariant. *)
Lemma run_invariant (evs : list event) (s : state) :
  invariant s -> invariant (run evs s).
Proof.
  revert s. induction evs as [|e evs IH]; intros s H; [done|].
  simpl. apply IH. by apply step_invariant.
Qed.

(** *** The rounds of the loop, in order *)

Lemma append_all_order (arr : list JSON) (s s' : state) (a a' : Z) (t : bool) :
  append_all arr s a = (s', a', t) ->
  exists new,
    quizData s' = quizData s ++ new
    /\ previousQuestions s' = previousQuestions s ++ (question <$> new)
    /\ sublist ((fun e => Ok (question e)) <$> new) (candidate_text <$> arr)
    /\ a' = a + Z.of_nat (length new).
Proof.
  revert s a. induction arr as [|q arr IH]; intros s a H; simpl in H.
  - injection H as <- <- <-. exists []. rewrite !app_nil_r. simpl.
    repeat split; [constructor|lia].
  - destruct (append_candidate q s) as [[s1 n]|] eqn:Eq.
    + apply IH in H as (new & Hq & Hp & Hs & Ha).
      apply append_candidate_spec in Eq
        as [[-> ->]|(-> & qtext & entry & Ht & _ & _ & _ & Hn & ->)].
      * exists new. repeat split; [done|done| |lia].
        simpl. by apply sublist_cons.
      * apply normalize_fields_spec in Hn as (Hqe & _ & _).
        exists (entry :: new). rewrite Hq, Hp. cbn [quizData previousQuestions
          set_quizData set_previousQuestions]. rewrite <- !app_assoc.
        split; [done|]. split; [by rewrite fmap_cons, Hqe|].
        split; [|rewrite length_cons; lia].
        rewrite !fmap_cons, Ht, Hqe. by apply sublist_skip.
    + injection H as <- <- <-. exists []. rewrite !app_nil_r. simpl.
      repeat split; [apply sublist_nil_l|lia].
Qed.


(** C5. Timer exclusivity. In every state the script reaches, whatever the
    events that led to it (start, next, previous, restart, clicks, keys,
    answers of the server, timers firing), at most one interval is live,
    and it is the one [timerHandle] names; [stopTimer] leaves none live and
    [startTimer] leaves exactly the one it has just created, the former one
    cancelled. *)
Theorem timer_exclusive (overlay : bool) (evs : list event) :
  let s := run evs (initial overlay) in
  (size (intervals s) <= 1)%nat
  /\ intervals s = match timerHandle s with Some h => {[h]} | None => ∅ end
  /\ intervals (stopTimer s) = ∅
  /\ intervals (startTimer s) = {[next_handle s]}
  /\ (size (intervals (settle (nextQuestion s))) <= 1)%nat
  /\ (size (intervals (settle (previousQuestion s))) <= 1)%nat
  /\ (size (intervals (settle (restartQuiz s))) <= 1)%nat.
Proof.
  intros s.
  assert (Hsize : forall s0, timer_ok s0 -> (size (intervals s0) <= 1)%nat).
  { intros s0 H0. rewrite H0. destruct (timerHandle s0).
    - rewrite size_singleton. lia.
    - rewrite size_empty. lia. }
  destruct (run_invariant evs (initial overlay) (invariant_initial overlay))
    as (_ & _ & Hk). fold s in Hk.
  split; [by apply Hsize|]. split; [exact Hk|].
  split; [apply (stopTimer_stops s Hk)|].
  split; [apply (startTimer_starts s Hk)|].
  split; [apply Hsize; by apply nextQuestion_ok|].
  split; [apply Hsize; by apply previousQuestion_ok|].
  apply Hsize; by apply restartQuiz_ok.
Qed.

(** *** A round that accepts nothing *)

Lemma showLoading_session (on : bool) (m : jstring) (s : state) :
  session (showLoading on m s) = session s
  /\ alerts (showLoading on m s) = alerts s
  /\ warnings (showLoading on m s) = warnings s.
Proof. unfold showLoading. by repeat case_match. Qed.


(** *** Feedback and rendering *)

(** Whatever has been recorded for the question, a selection is recorded
    over it and its feedback is scheduled. *)
Lemma onOptionClicked_records (idx : Z) (s : state) :
  buttons s <> [] ->
  selectedAnswers (onOptionClicked idx s) !! currentQuestionIndex s = Some idx
  /\ timeouts (onOptionClicked idx s) = timeouts s ++ [(400, Feedback idx)].
Proof.
  intros H. unfold onOptionClicked. rewrite bool_decide_eq_false_2 by done.
  simpl. split; [apply lookup_insert_eq|done].
Qed.

Lemma index_lookup {A} (l : list A) (z : Z) (i : nat) :
  l !! i = None \/ (is_Some (l !! i) /\
    ((0 <=? z) && bool_decide (is_Some (index l z)) = true /\ Z.to_nat z = i
     <-> Z.of_nat i = z)).
Proof.
  destruct (l !! i) as [x|] eqn:E; [right|by left]. split; [done|].
  unfold index. split.
  - intros [H <-]. apply andb_prop in H as [H _].
    apply Z.leb_le in H. lia.
  - intros <-. split; [|lia].
    apply andb_true_intro. split; [apply Z.leb_le; lia|].
    apply bool_decide_eq_true. destruct (Z.ltb_spec (Z.of_nat i) 0); [lia|].
    replace (Z.to_nat (Z.of_nat i)) with i by lia. by rewrite E.
Qed.

Lemma render_options_total (opts : list JSON) (i : N) (s : state) :
  Forall (fun o => exists t, toString o = Ok t) opts ->
  exists s', render_options opts i s = Done s'
             /\ length (buttons s') = (length (buttons s) + length opts)%nat.
Proof.
  intros H. revert i s. induction H as [|o opts [t Ht] _ IH]; intros i s.
  - exists s. simpl. split; [done|lia].
  - simpl. rewrite Ht. edestruct IH as (s' & -> & Hl). exists s'.
    split; [done|]. rewrite Hl. simpl. rewrite length_app. simpl. lia.
Qed.


End ClientFacts.

(** ** From provider item to stored Question *)

Module WireFacts.
Import JS JSFacts.

Ltac eval_own :=
  repeat match goal with
         | |- context [own ?f ?k] =>
             let r := eval vm_compute in (own f k) in
             change (own f k) with r
         end.

(** The entry the client stores for a question of the first server
    variant: same options and explanation, the answer index clamped. *)
Lemma normalize_fields_of_reply (sq : Server.Question) (qtext : jstring) :
  Client.normalize_fields (Server.Question_json sq) qtext
  = Ok {| Client.question := qtext;
          Client.options := slice (JStr <$> Server.options sq) 0 4;
          Client.answer_index := Z.max 0 (Z.min 3 (Server.answer_index sq));
          Client.explanation := JStr (Server.explanation sq) |}.
Proof.
  destruct sq as [qq oo aa ee].
  unfold Client.normalize_fields, Server.Question_json, prop.
  cbn [mbind result_bind]. eval_own. simpl. do 2 f_equal.
  unfold or_else, truthy. destruct (jstring_eqb ee []) eqn:E; simpl; [|done].
  apply jstring_eqb_true in E. by subst.
Qed.

(** From the first server variant the client stores exactly four options. *)
Lemma first_variant_four_options (it : JSON) (sq : Server.Question)
    (qtext : jstring) :
  Server.normalize_item it = Ok sq ->
  exists e,
    Client.normalize_fields (Server.Question_json sq) qtext = Ok e
    /\ length (Client.options e) = 4%nat.
Proof.
  intros H. eexists. split; [apply normalize_fields_of_reply|]. simpl.
  rewrite ServerFacts.slice_take by lia. rewrite length_take, length_fmap.
  rewrite (ServerFacts.normalize_item_four_options it sq H). lia.
Qed.

(** The server hands a numeric [answer_index] on as it is. *)
Lemma server_answer_index_number (fields : list (jstring * JSON)) (k : Z)
    (sq : Server.Question) :
  own fields (lit "answer_index") = Some (JNum k) ->
  Server.normalize_item (JObj fields) = Ok sq ->
  Server.answer_index sq = k.
Proof.
  unfold Server.normalize_item, prop. cbn [mbind result_bind].
  intros Ha H. rewrite Ha in H. cbn [isNumber] in H.
  ServerFacts.inv_binds H. by injection H as <-.
Qed.

(** Without a numeric index and without an answer text found among the
    options, the server resolves the index to 0. *)
Lemma server_answer_index_default (fields : list (jstring * JSON))
    (sq : Server.Question) :
  isNumber (own fields (lit "answer_index")) = None ->
  isNumber (own fields (lit "answerIndex")) = None ->
  (forall a, own fields (lit "answer") = Some (JStr a) ->
             array_indexOf (Server.options sq) a = -1) ->
  Server.normalize_item (JObj fields) = Ok sq ->
  Server.answer_index sq = 0.
Proof.
  unfold Server.normalize_item, prop. cbn [mbind result_bind].
  intros Ha Hb Hc H. rewrite Ha, Hb in H.
  destruct (own fields (lit "answer")) as [[| | |a| |]|] eqn:Ea;
    cbn [isString] in H.
  4:{ ServerFacts.inv_binds H. injection H as <-. simpl in *.
      rewrite (Hc a eq_refl). done. }
  all: ServerFacts.inv_binds H; by injection H as <-.
Qed.


(** An item whose answer index is 7. *)
Definition item7 : list (jstring * JSON) :=
  [ (lit "question", JStr (lit "Which planet has rings?"));
    (lit "options", JArr [JStr (lit "Mars"); JStr (lit "Venus");
                          JStr (lit "Earth"); JStr (lit "Saturn")]);
    (lit "answer_index", JNum 7) ].

Definition item7_normalized : Server.Question :=
  {| Server.question := lit "Which planet has rings?";
     Server.options := [lit "Mars"; lit "Venus"; lit "Earth"; lit "Saturn"];
     Server.answer_index := 7;
     Server.explanation := [] |}.


End WireFacts.

(** ** A session from end to end *)

Module Scenario.
Import JS.

(** What the model answers to a request for two questions. *)
Definition provider_text : jstring :=
  text "```json {'questions': [{'question': 'Which keyword defines a function?', 'options': ['def', 'fun', 'func', 'lambda'], 'answer_index': 0}, {'question': 'Which type is immutable?', 'options': ['list', 'dict', 'set', 'tuple'], 'answer_index': 3}]} ```".

Definition reply : Server.reply :=
  Server.generate_quiz JSON_parse (Some (JStr (lit "Python basics")))
    (Some (JNum 2)) provider_text.

Definition start_events : list Client.event :=
  [ Client.ModalStart (lit "Python basics") 2;
    Client.Response 0 (Wire.deliver reply) ].

(** The quiz started on the first of two questions. *)
Definition started : Client.state :=
  Client.run start_events (Client.initial true).

(** A provider answer with two options only and an answer index beyond
    them, and the session the second server variant starts from it. *)
Definition short_text : jstring :=
  text "[{'question': 'Which planet has rings?', 'options': ['Mars', 'Saturn'], 'answer_index': 3}]".

Definition short_question : Client.Question :=
  {| Client.question := lit "Which planet has rings?";
     Client.options := [JStr (lit "Mars"); JStr (lit "Saturn")];
     Client.answer_index := 3;
     Client.explanation := JStr [] |}.

Definition started_short : Client.state :=
  Client.run
    [ Client.ModalStart (lit "Planets") 5;
      Client.Response 0
        (Wire.deliver (ServerAlt.generate_quiz JSON_parse short_text 5)) ]
    (Client.initial true).

Example started_two_questions :
  Client.answer_index <$> Client.quizData started = [0; 3]
  /\ Client.currentQuestionIndex started = 0
  /\ Client.active started = Client.Quiz
  /\ length (Client.buttons started) = 4%nat
  /\ Client.timerHandle started = Some 1%positive.
Proof. vm_compute. repeat split; reflexivity. Qed.

(** C1. The code records and scores every selection. On the first
    question (answer index 0) of a started quiz, the key 1 pressed once
    and its feedback give score 1; pressed twice before the first
    feedback runs, both feedbacks run on the same question and the score
    is 2; so with two clicks on the first button. A wrong key followed by
    the right one is scored on the second. *)
Theorem second_selection_rescored :
  Client.score (Client.run [Client.KeyDown (lit "1"); Client.TimeoutFires 0]
                  started) = 1
  /\ Client.score
       (Client.run [Client.KeyDown (lit "1"); Client.KeyDown (lit "1");
                    Client.TimeoutFires 0; Client.TimeoutFires 0] started) = 2
  /\ Client.currentQuestionIndex
       (Client.run [Client.KeyDown (lit "1"); Client.KeyDown (lit "1");
                    Client.TimeoutFires 0; Client.TimeoutFires 0] started) = 0
  /\ Client.score
       (Client.run [Client.OptionClicked 0; Client.OptionClicked 0;
                    Client.TimeoutFires 0; Client.TimeoutFires 0] started) = 2
  /\ Client.score
       (Client.run [Client.KeyDown (lit "2"); Client.TimeoutFires 0]
                  started) = 0
  /\ Client.score
       (Client.run [Client.KeyDown (lit "2"); Client.KeyDown (lit "1");
                    Client.TimeoutFires 0; Client.TimeoutFires 0] started) = 1.
Proof. vm_compute. repeat split; reflexivity. Qed.

(** C3. The handler of the second server variant pads a copy of the
    options and drops it: for an item with two options it replies with two
    options, and the client, which truncates to four but does not pad,
    stores and renders two. The first variant pads the same item to four. *)
Theorem second_variant_options_not_padded :
  ServerAlt.generate_quiz JSON_parse short_text 5
  = Server.Reply200
      [ {| Server.question := lit "Which planet has rings?";
           Server.options := [lit "Mars"; lit "Saturn"];
           Server.answer_index := 3;
           Server.explanation := [] |} ]
  /\ Client.quizData started_short = [short_question]
  /\ length (Client.buttons started_short) = 2%nat
  /\ Server.generateWithGemini JSON_parse short_text 5
     = Ok [ {| Server.question := lit "Which planet has rings?";
               Server.options := [lit "Mars"; lit "Saturn";
                                  lit "Option"; lit "Option"];
               Server.answer_index := 3;
               Server.explanation := [] |} ].
Proof. vm_compute. repeat split; reflexivity. Qed.

(** A candidate whose text the session already holds. *)
Definition repeated : JSON :=
  JObj [ (lit "question", JStr (lit " Which type is immutable? "));
         (lit "options", JArr [JStr (lit "a"); JStr (lit "b");
                               JStr (lit "c"); JStr (lit "d")]);
         (lit "answer_index", JNum 1) ].


(** The same answer delivered a second time: every candidate is a repeat. *)
Definition second_round : bool * Client.state :=
  Client.fetchAndAppendQuestions (Wire.deliver reply) started.



End Scenario.

(** ** Locating the payload *)

Module ExtractFacts.
Import JS JSFacts.

(** *** Searching for a mark that the text before or after lacks *)

Lemma starts_with_app (p s : jstring) : starts_with p (p ++ s) = true.
Proof.
  induction p as [|c p IH]; simpl; [done|]. by rewrite N.eqb_refl.
Qed.

Lemma starts_with_head (c d : N) (p s : jstring) :
  c <> d -> starts_with (c :: p) (d :: s) = false.
Proof. intros H. simpl. apply N.eqb_neq in H. by rewrite H. Qed.

Lemma indexOf_from_skip (c : N) (pat p rest : jstring) (i : Z) :
  c ∉ p ->
  indexOf_from (c :: pat) (p ++ (c :: pat) ++ rest) i = i + Z.of_nat (length p).
Proof.
  revert i. induction p as [|d p IH]; intros i Hp.
  - simpl. rewrite N.eqb_refl, starts_with_app. simpl. lia.
  - apply not_elem_of_cons in Hp as [Hd Hp].
    change ((d :: p) ++ (c :: pat) ++ rest)
      with (d :: (p ++ (c :: pat) ++ rest)).
    cbn [indexOf_from]. rewrite starts_with_head by done.
    rewrite IH by done. rewrite length_cons. lia.
Qed.

Lemma indexOf_from_none (c : N) (pat s : jstring) (i : Z) :
  c ∉ s -> indexOf_from (c :: pat) s i = -1.
Proof.
  revert i. induction s as [|d s IH]; intros i Hs; [done|].
  apply not_elem_of_cons in Hs as [Hd Hs].
  cbn [indexOf_from]. rewrite starts_with_head by done. by apply IH.
Qed.

Lemma lastIndexOf_from_none (c : N) (pat s : jstring) (i f : Z) :
  c ∉ s -> lastIndexOf_from (c :: pat) s i f = f.
Proof.
  revert i. induction s as [|d s IH]; intros i Hs; [done|].
  apply not_elem_of_cons in Hs as [Hd Hs].
  cbn [lastIndexOf_from]. rewrite starts_with_head by done. by apply IH.
Qed.

Lemma lastIndexOf_from_single (c : N) (x s : jstring) (i f : Z) :
  c ∉ s -> lastIndexOf_from [c] (x ++ c :: s) i f = i + Z.of_nat (length x).
Proof.
  intros Hs. revert i f. induction x as [|d x IH]; intros i f.
  - cbn [app lastIndexOf_from starts_with]. rewrite N.eqb_refl. simpl.
    rewrite lastIndexOf_from_none by done. lia.
  - change ((d :: x) ++ c :: s) with (d :: (x ++ c :: s)).
    cbn [lastIndexOf_from]. rewrite IH. rewrite length_cons. lia.
Qed.

Definition fence : jstring := [96; 96; 96]%N.
Definition fence_json : jstring := [96; 96; 96; 106; 115; 111; 110]%N.

Lemma starts_with_fence_short (s : jstring) :
  96%N ∉ s ->
  starts_with fence (96%N :: 96%N :: s) = false
  /\ starts_with fence (96%N :: s) = false.
Proof.
  intros Hs. unfold fence. destruct s as [|e s].
  - done.
  - apply not_elem_of_cons in Hs as [He Hs].
    assert ((96 =? e)%N = false) as E by (apply N.eqb_neq; congruence).
    cbn [starts_with]. rewrite !N.eqb_refl, E. done.
Qed.

Lemma lastIndexOf_from_fence (x s : jstring) (i f : Z) :
  96%N ∉ s ->
  lastIndexOf_from fence (x ++ fence ++ s) i f = i + Z.of_nat (length x).
Proof.
  intros Hs. revert i f. induction x as [|d x IH]; intros i f.
  - destruct (starts_with_fence_short s Hs) as [E2 E1].
    change ([] ++ fence ++ s) with (96%N :: 96%N :: 96%N :: s).
    cbn [lastIndexOf_from].
    change (96%N :: 96%N :: 96%N :: s) with (fence ++ s).
    rewrite starts_with_app, E2, E1.
    unfold fence. rewrite lastIndexOf_from_none by done. simpl. lia.
  - change ((d :: x) ++ fence ++ s) with (d :: (x ++ fence ++ s)).
    cbn [lastIndexOf_from]. rewrite IH. rewrite length_cons. lia.
Qed.

Lemma slice_middle {A} (p b s : list A) :
  slice (p ++ b ++ s) (Z.of_nat (length p)) (Z.of_nat (length p + length b)) = b.
Proof.
  unfold slice, slice_pos. rewrite !length_app.
  destruct (Z.ltb_spec (Z.of_nat (length p)) 0); [lia|].
  destruct (Z.ltb_spec (Z.of_nat (length p + length b)) 0); [lia|].
  rewrite !Z.min_l by lia.
  replace (Z.to_nat (Z.of_nat (length p + length b) - Z.of_nat (length p)))
    with (length b) by lia.
  rewrite Nat2Z.id, drop_app_length. by rewrite take_app_length.
Qed.

(** *** The second variant: from the first bracket to the last *)

Section Located.
Variable JSON_parse : jstring -> option JSON.

Lemma extractJsonArrayFromText_located (p m s : jstring) :
  91%N ∉ p -> 93%N ∉ s ->
  ServerAlt.extractJsonArrayFromText JSON_parse
    (p ++ [91%N] ++ m ++ [93%N] ++ s)
  = JSON_parse (ServerAlt.clean ([91%N] ++ m ++ [93%N])).
Proof.
  intros Hp Hs. unfold ServerAlt.extractJsonArrayFromText.
  assert (jstring_eqb (p ++ [91%N] ++ m ++ [93%N] ++ s) [] = false) as ->.
  { apply jstring_eqb_false. by destruct p. }
  assert (indexOf (p ++ [91%N] ++ m ++ [93%N] ++ s) (lit "[")
          = Z.of_nat (length p)) as ->.
  { unfold indexOf. change (lit "[") with [91%N].
    rewrite (indexOf_from_skip 91 [] p) by done. lia. }
  assert (lastIndexOf (p ++ [91%N] ++ m ++ [93%N] ++ s) (lit "]")
          = Z.of_nat (length p + S (length m))) as ->.
  { unfold lastIndexOf. change (lit "]") with [93%N].
    replace (p ++ [91%N] ++ m ++ [93%N] ++ s)
      with ((p ++ [91%N] ++ m) ++ 93%N :: s) by (by rewrite <- !app_assoc).
    rewrite lastIndexOf_from_single by done.
    rewrite !length_app. simpl. lia. }
  destruct (Z.eqb_spec (Z.of_nat (length p)) (-1)); [lia|].
  destruct (Z.eqb_spec (Z.of_nat (length p + S (length m)) + 1) (-1)); [lia|].
  cbn [orb]. f_equal. f_equal.
  replace (Z.of_nat (length p + S (length m)) + 1)
    with (Z.of_nat (length p + length (91%N :: m ++ [93%N]))).
  2:{ rewrite length_cons, length_app. simpl. lia. }
  replace (p ++ [91%N] ++ m ++ [93%N] ++ s)
    with (p ++ (91%N :: m ++ [93%N]) ++ s)
    by (simpl; by rewrite <- app_assoc).
  apply slice_middle.
Qed.

(** *** The first variant: between the fence markers *)

Lemma extractJsonFromText_fenced (p b s : jstring) :
  96%N ∉ p -> 96%N ∉ s ->
  Server.extractJsonFromText JSON_parse (p ++ fence_json ++ b ++ fence ++ s)
  = JSON_parse (trim b).
Proof.
  intros Hp Hs. unfold Server.extractJsonFromText.
  assert (jstring_eqb (p ++ fence_json ++ b ++ fence ++ s) [] = false) as ->.
  { apply jstring_eqb_false. by destruct p. }
  assert (indexOf (p ++ fence_json ++ b ++ fence ++ s) (lit "```json")
          = Z.of_nat (length p)) as ->.
  { unfold indexOf. change (lit "```json") with fence_json.
    unfold fence_json at 1 2.
    rewrite (indexOf_from_skip 96 _ p) by done. lia. }
  assert (lastIndexOf (p ++ fence_json ++ b ++ fence ++ s) (lit "```")
          = Z.of_nat (length p + 7 + length b)) as ->.
  { unfold lastIndexOf. change (lit "```") with fence.
    replace (p ++ fence_json ++ b ++ fence ++ s)
      with ((p ++ fence_json ++ b) ++ fence ++ s) by (by rewrite <- !app_assoc).
    rewrite lastIndexOf_from_fence by done.
    rewrite !length_app. simpl. lia. }
  destruct (Z.eqb_spec (Z.of_nat (length p)) (-1)); [lia|].
  destruct (Z.eqb_spec (Z.of_nat (length p + 7 + length b)) (-1)); [lia|].
  cbn [orb]. f_equal. f_equal.
  replace (p ++ fence_json ++ b ++ fence ++ s)
    with ((p ++ fence_json) ++ b ++ (fence ++ s)) by (by rewrite <- !app_assoc).
  replace (Z.of_nat (length p) + 7) with (Z.of_nat (length (p ++ fence_json)))
    by (rewrite length_app; simpl; lia).
  replace (Z.of_nat (length p + 7 + length b))
    with (Z.of_nat (length (p ++ fence_json) + length b))
    by (rewrite length_app; simpl; lia).
  apply slice_middle.
Qed.

Lemma extractJsonFromText_unfenced (rawText : jstring) :
  96%N ∉ rawText -> Server.extractJsonFromText JSON_parse rawText = None.
Proof.
  intros H. apply ServerFacts.extractJsonFromText_None. right. left.
  unfold indexOf. change (lit "```json") with fence_json.
  by apply indexOf_from_none.
Qed.

End Located.

(** *** What the cleaning of the second variant repairs *)

Lemma strip_fences_plain (a x : jstring) :
  96%N ∉ a ->
  ServerAlt.strip_fences (a ++ x) = a ++ ServerAlt.strip_fences x.
Proof.
  unfold ServerAlt.strip_fences. induction a as [|d a IH]; intros Ha; [done|].
  apply not_elem_of_cons in Ha as [Hd Ha].
  change ((d :: a) ++ x) with (d :: (a ++ x)).
  cbn [ServerAlt.strip_fences_from].
  change (lit "```json") with fence_json. change (lit "```") with fence.
  unfold fence_json at 1, fence at 1.
  rewrite !starts_with_head by done. by rewrite IH.
Qed.

Lemma strip_fences_json (a x : jstring) :
  96%N ∉ a ->
  ServerAlt.strip_fences (a ++ fence_json ++ x) = a ++ ServerAlt.strip_fences x.
Proof. intros Ha. by rewrite strip_fences_plain. Qed.

Lemma strip_fences_fence (a x : jstring) :
  96%N ∉ a -> starts_with (lit "json") x = false ->
  ServerAlt.strip_fences (a ++ fence ++ x) = a ++ ServerAlt.strip_fences x.
Proof.
  intros Ha Hx. rewrite strip_fences_plain by done. f_equal.
  unfold ServerAlt.strip_fences, fence.
  change ([96%N; 96%N; 96%N] ++ x) with (96%N :: 96%N :: 96%N :: x).
  cbn [ServerAlt.strip_fences_from].
  assert (starts_with (lit "```json") (96%N :: 96%N :: 96%N :: x) = false) as ->.
  { change (lit "```json") with ([96%N; 96%N; 96%N] ++ lit "json").
    cbn [app starts_with]. by rewrite !N.eqb_refl, Hx. }
  reflexivity.
Qed.

Lemma plain_quotes_app (a b : jstring) :
  ServerAlt.plain_quotes (a ++ b)
  = ServerAlt.plain_quotes a ++ ServerAlt.plain_quotes b.
Proof. apply fmap_app. Qed.

Lemma closes_comma (a y : jstring) :
  ServerAlt.closes (a ++ 44%N :: y) = ServerAlt.closes a.
Proof.
  induction a as [|d a IH]; [done|]. simpl. by rewrite IH.
Qed.

Lemma drop_trailing_commas_comma (a y : jstring) :
  ServerAlt.drop_trailing_commas (a ++ 44%N :: y)
  = ServerAlt.drop_trailing_commas a
    ++ ServerAlt.drop_trailing_commas (44%N :: y).
Proof.
  induction a as [|d a IH]; [done|].
  change ((d :: a) ++ 44%N :: y) with (d :: (a ++ 44%N :: y)).
  cbn [ServerAlt.drop_trailing_commas]. rewrite closes_comma, IH.
  by destruct ((d =? 44)%N && ServerAlt.closes a).
Qed.

Lemma closes_after_space (w r : jstring) (c : N) :
  Forall (fun d => is_ws d = true) w -> c = 125%N \/ c = 93%N ->
  ServerAlt.closes (w ++ c :: r) = true.
Proof.
  intros Hw Hc. induction Hw as [|d w Hd _ IH].
  - by destruct Hc as [-> | ->].
  - simpl. by rewrite Hd.
Qed.

Lemma drop_trailing_commas_space (w r : jstring) (c : N) :
  Forall (fun d => is_ws d = true) w -> c = 125%N \/ c = 93%N ->
  ServerAlt.drop_trailing_commas (w ++ c :: r)
  = w ++ c :: ServerAlt.drop_trailing_commas r.
Proof.
  intros Hw Hc. induction Hw as [|d w Hd _ IH].
  - by destruct Hc as [-> | ->].
  - change ((d :: w) ++ c :: r) with (d :: (w ++ c :: r)).
    cbn [ServerAlt.drop_trailing_commas].
    destruct (N.eqb_spec d 44) as [->|_]; [done|]. simpl. by rewrite IH.
Qed.

(** A comma before white space and a closing brace or bracket goes; the
    text around it is treated on its own. *)
Lemma drop_trailing_commas_spec (a w r : jstring) (c : N) :
  Forall (fun d => is_ws d = true) w -> c = 125%N \/ c = 93%N ->
  ServerAlt.drop_trailing_commas (a ++ [44%N] ++ w ++ [c] ++ r)
  = ServerAlt.drop_trailing_commas a ++ w ++ [c]
    ++ ServerAlt.drop_trailing_commas r.
Proof.
  intros Hw Hc.
  change (a ++ [44%N] ++ w ++ [c] ++ r) with (a ++ 44%N :: (w ++ c :: r)).
  rewrite drop_trailing_commas_comma. f_equal.
  cbn [ServerAlt.drop_trailing_commas].
  rewrite closes_after_space by done. simpl.
  by apply drop_trailing_commas_space.
Qed.

(** *** The shapes [generateWithGemini] accepts *)

Section Shapes.
Variable JSON_parse : jstring -> option JSON.

Lemma generateWithGemini_array (text : jstring) (count : Z) (l : list JSON) :
  text <> [] ->
  Server.extractJsonFromText JSON_parse text = Some (JArr l) ->
  Server.generateWithGemini JSON_parse text count
  = Server.normalizeQuestions (JArr l) count.
Proof.
  intros Hne He. unfold Server.generateWithGemini. rewrite He.
  apply jstring_eqb_false in Hne. by rewrite Hne.
Qed.

Lemma generateWithGemini_object (text : jstring) (count : Z)
    (fields : list (jstring * JSON)) :
  text <> [] ->
  Server.extractJsonFromText JSON_parse text = Some (JObj fields) ->
  Server.generateWithGemini JSON_parse text count
  = match own fields (lit "questions") with
    | Some (JArr l) => Server.normalizeQuestions (JArr l) count
    | _ => Throw (Failure (lit "Failed to parse Gemini JSON.")
                    (Some (slice text 0 2000)))
    end.
Proof.
  intros Hne He. unfold Server.generateWithGemini. rewrite He.
  apply jstring_eqb_false in Hne. by rewrite Hne.
Qed.


End Shapes.

(** A model answer with prose, a fence, typographic quotes and commas
    before the closing bracket and brace. *)
Definition messy : jstring :=
  lit "Here you go: ```json [{" ++ [8220%N] ++ lit "question" ++ [8221%N]
  ++ text ": 'Which planet has rings?', 'options': ['Mars', 'Venus', 'Earth', 'Saturn', ], 'answer_index': 3, }] ``` Enjoy!".

Definition messy_payload : JSON :=
  JArr [ JObj [ (lit "question", JStr (lit "Which planet has rings?"));
                (lit "options", JArr [JStr (lit "Mars"); JStr (lit "Venus");
                                      JStr (lit "Earth"); JStr (lit "Saturn")]);
                (lit "answer_index", JNum 3) ] ].

Example messy_second_variant :
  ServerAlt.extractJsonArrayFromText JS.JSON_parse messy = Some messy_payload.
Proof. vm_compute. reflexivity. Qed.



End ExtractFacts.

(** * More of the server *)

(** ** The rate limiter and the loop over the candidate models *)

Module ServerMore.
Import JS.

Definition RATE_LIMIT : Z := 12.
Definition RATE_WINDOW_MS : Z := 60000.

(** [checkRateLimit(ip)] at the time [now], on the map [requests] from
    addresses to the times of their requests: the answer and the map it
    leaves. *)
Definition checkRateLimit (now : Z) (ip : jstring)
    (requests : gmap jstring (list Z)) : bool * gmap jstring (list Z) :=
  let timestamps := default [] (requests !! ip) in
  let fresh := filter (fun t => now - t < RATE_WINDOW_MS) timestamps in
  let fresh := fresh ++ [now] in
  (Z.of_nat (length fresh) <=? RATE_LIMIT, <[ip := fresh]> requests).

(** Requests of one address at the given times, one after the other. *)
Fixpoint serve (times : list Z) (ip : jstring)
    (requests : gmap jstring (list Z)) : list bool * gmap jstring (list Z) :=
  match times with
  | [] => ([], requests)
  | now :: rest =>
      let '(ok, requests) := checkRateLimit now ip requests in
      let '(oks, requests) := serve rest ip requests in
      (ok :: oks, requests)
  end.

(** Times that never go back, from [last] on. *)
Fixpoint nondecreasing (last : Z) (times : list Z) : Prop :=
  match times with
  | [] => True
  | t :: rest => last <= t /\ nondecreasing t rest
  end.

(** The sliding window read on the whole history, nothing forgotten: a
    request is admitted when fewer than twelve earlier requests of the
    address, admitted or not, lie less than a window before it. *)
Fixpoint sliding_window (history times : list Z) : list bool :=
  match times with
  | [] => []
  | now :: rest =>
      bool_decide
        (length (filter (fun t => (now - t < RATE_WINDOW_MS)%Z) history)
         < 12)%nat
      :: sliding_window (history ++ [now]) rest
  end.

(** What [tryGenerateWithModel] comes to for one candidate model: a text
    (possibly empty), null for a model that is not found, or another error,
    which it raises again. *)
Inductive attempt :=
| Answered (text : jstring)
| NotFound
| Rejected (message : jstring).

(** The loop over [modelCandidates], each with what it would answer: the
    [responseText] it ends with (empty when none answered), or the error of
    a candidate that is not a missing model. *)
Fixpoint try_models (attempts : list attempt) : result jstring :=
  match attempts with
  | [] => Ok []
  | Answered t :: rest => if jstring_eqb t [] then try_models rest else Ok t
  | NotFound :: rest => try_models rest
  | Rejected message :: _ => Throw (Failure message None)
  end.

(** A candidate the loop passes over: not found, or an empty answer. *)
Definition passed_over (a : attempt) : Prop :=
  a = NotFound \/ a = Answered [].

(** An item of the payload that is neither null nor an object. *)
Definition not_a_record (it : JSON) : Prop :=
  match it with
  | JNull | JObj _ => False
  | _ => True
  end.

Section WithParser.
Variable JSON_parse : jstring -> option JSON.

(** [generateWithGemini] as a whole. *)
Definition generate (attempts : list attempt) (count : Z)
  : result (list Server.Question) :=
  text ← try_models attempts;
  Server.generateWithGemini JSON_parse text count.

End WithParser.

End ServerMore.

Module ServerMoreFacts.
Import JS JSFacts Server ServerMore.

(** *** The rate limiter *)

Lemma checkRateLimit_all_fresh (now : Z) (ip : jstring)
    (requests : gmap jstring (list Z)) (old : list Z) :
  requests !! ip = Some old ->
  Forall (fun t => now - t < RATE_WINDOW_MS) old ->
  checkRateLimit now ip requests
  = (bool_decide (length old < 12)%nat, <[ip := old ++ [now]]> requests).
Proof.
  intros Hip Hold. unfold checkRateLimit. rewrite Hip. simpl.
  rewrite ServerFacts.filter_all by done. f_equal.
  rewrite length_app. simpl. unfold RATE_LIMIT.
  case_bool_decide; [apply Z.leb_le|apply Z.leb_gt]; lia.
Qed.

Lemma serve_burst (times old : list Z) (ip : jstring)
    (requests : gmap jstring (list Z)) :
  requests !! ip = Some old ->
  (forall t t', t ∈ old ++ times -> t' ∈ times -> t' - t < RATE_WINDOW_MS) ->
  fst (serve times ip requests)
  = (fun k => bool_decide (length old + k < 12)%nat) <$> seq 0 (length times).
Proof.
  revert old requests. induction times as [|now times IH];
    intros old requests Hip Hw; [done|].
  cbn [serve]. rewrite (checkRateLimit_all_fresh now ip requests old Hip).
  2:{ apply Forall_forall. intros t Ht. apply Hw; set_solver. }
  specialize (IH (old ++ [now]) (<[ip := old ++ [now]]> requests)).
  destruct (serve times ip _) as [oks r] eqn:E.
  cbn [fst length seq fmap list_fmap] in *.
  f_equal; [by rewrite Nat.add_0_r|].
  rewrite IH.
  - rewrite <- fmap_S_seq, <- list_fmap_compose. apply list_fmap_ext.
    intros _ k _. simpl. rewrite length_app. simpl.
    apply bool_decide_ext. lia.
  - apply lookup_insert_eq.
  - intros t t' Ht Ht'. apply Hw; [|set_solver].
    rewrite <- app_assoc in Ht. exact Ht.
Qed.

(** X1. A burst from one address: of requests whose times lie within one
    window of each other, from an address without earlier requests, the
    first twelve are admitted and every later one is refused. *)
Theorem burst_admits_twelve (times : list Z) (ip : jstring)
    (requests : gmap jstring (list Z)) :
  requests !! ip = None ->
  (forall t t', t ∈ times -> t' ∈ times -> t' - t < RATE_WINDOW_MS) ->
  fst (serve times ip requests)
  = (fun k => bool_decide (k < 12)%nat) <$> seq 0 (length times).
Proof.
  intros Hip Hw. destruct times as [|now times]; [done|].
  cbn [serve]. unfold checkRateLimit at 1. rewrite Hip.
  cbn [default filter list_filter app length].
  pose proof (serve_burst times [now] ip (<[ip := [now]]> requests)) as H.
  destruct (serve times ip _) as [oks r].
  cbn [fst length seq fmap list_fmap] in *. f_equal.
  rewrite H.
  - rewrite <- fmap_S_seq, <- list_fmap_compose. done.
  - apply lookup_insert_eq.
  - intros t t' Ht Ht'. apply Hw; set_solver.
Qed.

Lemma burst_admits_twelve_witness :
  fst (serve [0; 400; 59999] (lit "10.0.0.7") ∅)
  = (fun k => bool_decide (k < 12)%nat) <$> seq 0 (length [0; 400; 59999]).
Proof.
  apply (burst_admits_twelve [0; 400; 59999] (lit "10.0.0.7") ∅).
  - reflexivity.
  - intros t t' Ht Ht'. unfold RATE_WINDOW_MS. set_unfold. lia.
Defined.

Lemma filter_filter_implied {A} (P Q : A -> Prop)
    `{forall x, Decision (P x)} `{forall x, Decision (Q x)} (l : list A) :
  (forall x, P x -> Q x) -> filter P (filter Q l) = filter P l.
Proof.
  intros HPQ. induction l as [|x l IH]; [done|].
  rewrite !filter_cons. destruct (decide (Q x)) as [Hq|Hq].
  - rewrite filter_cons. destruct (decide (P x)); by rewrite IH.
  - destruct (decide (P x)) as [Hp|Hp]; [by apply HPQ in Hp|done].
Qed.

Lemma serve_sliding (times history : list Z) (last : Z) (ip : jstring)
    (requests : gmap jstring (list Z)) :
  requests !! ip = Some (filter (fun t => last - t < RATE_WINDOW_MS) history) ->
  nondecreasing last times ->
  fst (serve times ip requests) = sliding_window history times.
Proof.
  revert history last requests.
  induction times as [|now times IH]; intros history last requests Hip Hs;
    [done|].
  destruct Hs as [Hle Hs]. cbn [serve sliding_window].
  unfold checkRateLimit at 1. rewrite Hip. cbn [default id].
  rewrite (filter_filter_implied (fun t => now - t < RATE_WINDOW_MS))
    by (intros t; lia).
  specialize (IH (history ++ [now]) now
                (<[ip := filter (fun t => now - t < RATE_WINDOW_MS) history
                         ++ [now]]> requests)).
  destruct (serve times ip _) as [oks r]. cbn [fst] in *. f_equal.
  - rewrite length_app. simpl. unfold RATE_LIMIT.
    case_bool_decide; [apply Z.leb_le|apply Z.leb_gt]; lia.
  - apply IH; [|done]. rewrite lookup_insert_eq. f_equal.
    rewrite filter_app. f_equal. rewrite filter_cons.
    destruct (decide (now - now < RATE_WINDOW_MS)) as [|Hn]; [done|].
    unfold RATE_WINDOW_MS in Hn. lia.
Qed.

(** X2. The limiter keeps, for an address, only the times within the
    window of its latest request, yet with a clock that does not go back
    it answers as if it kept them all: each request is admitted exactly
    when fewer than twelve earlier requests of the address, refused ones
    included, lie less than 60000 ms before it. *)
Theorem limiter_is_sliding_window (times : list Z) (first : Z) (ip : jstring)
    (requests : gmap jstring (list Z)) :
  requests !! ip = None ->
  nondecreasing first times ->
  fst (serve times ip requests) = sliding_window [] times.
Proof.
  intros Hip Hs. destruct times as [|now times]; [done|].
  destruct Hs as [_ Hs]. cbn [serve sliding_window].
  unfold checkRateLimit at 1. rewrite Hip. cbn [default id].
  pose proof (serve_sliding times [now] now ip (<[ip := [now]]> requests)) as H.
  destruct (serve times ip _) as [oks r]. cbn [fst] in *. f_equal.
  apply H; [|done]. rewrite lookup_insert_eq. f_equal.
  rewrite filter_cons. destruct (decide (now - now < RATE_WINDOW_MS)) as [|Hn];
    [done|]. unfold RATE_WINDOW_MS in Hn. lia.
Qed.

Lemma limiter_is_sliding_window_witness :
  fst (serve [0; 10; 70000] (lit "10.0.0.7") ∅)
  = sliding_window [] [0; 10; 70000].
Proof.
  apply (limiter_is_sliding_window [0; 10; 70000] 0 (lit "10.0.0.7") ∅).
  - reflexivity.
  - simpl. lia.
Defined.

(** X3. Another address is never touched, and an address whose requests
    are all a window old or older is admitted, its history forgotten. *)
Theorem limiter_forgets (now : Z) (ip : jstring)
    (requests : gmap jstring (list Z)) :
  Forall (fun t => RATE_WINDOW_MS <= now - t) (default [] (requests !! ip)) ->
  checkRateLimit now ip requests = (true, <[ip := [now]]> requests)
  /\ (forall other, other <> ip ->
        snd (checkRateLimit now ip requests) !! other = requests !! other).
Proof.
  intros Hold. unfold checkRateLimit. split.
  - assert (filter (fun t => now - t < RATE_WINDOW_MS)
              (default [] (requests !! ip)) = []) as ->; [|done].
    induction Hold as [|t l Ht _ IH]; [done|].
    rewrite filter_cons. destruct (decide (now - t < RATE_WINDOW_MS)); [lia|done].
  - intros other Hne. simpl. by apply lookup_insert_ne.
Qed.

Lemma limiter_forgets_witness :
  checkRateLimit 90000 (lit "10.0.0.7") {[ lit "10.0.0.7" := [0; 30000] ]}
  = (true, <[lit "10.0.0.7" := [90000]]> {[ lit "10.0.0.7" := [0; 30000] ]})
  /\ (forall other, other <> lit "10.0.0.7" ->
        snd (checkRateLimit 90000 (lit "10.0.0.7")
               {[ lit "10.0.0.7" := [0; 30000] ]}) !! other
        = ({[ lit "10.0.0.7" := [0; 30000] ]} : gmap jstring (list Z)) !! other).
Proof.
  apply (limiter_forgets 90000 (lit "10.0.0.7")
           {[ lit "10.0.0.7" := [0; 30000] ]}).
  rewrite lookup_singleton_eq. unfold RATE_WINDOW_MS. simpl.
  repeat constructor; lia.
Defined.

(** *** [normalizeQuestions] on any payload *)

(** Induction on decoded values, through the elements of arrays. *)
Lemma JSON_array_ind (P : JSON -> Prop) :
  P JNull -> (forall b, P (JBool b)) -> (forall n, P (JNum n)) ->
  (forall s, P (JStr s)) -> (forall l, Forall P l -> P (JArr l)) ->
  (forall fields, P (JObj fields)) ->
  forall v, P v.
Proof.
  intros Hnull Hbool Hnum Hstr Harr Hobj.
  fix IH 1. intros [| b | n | s | l | fields].
  - exact Hnull.
  - apply Hbool.
  - apply Hnum.
  - apply Hstr.
  - apply Harr. induction l as [|x l IHl]; constructor; [apply IH|exact IHl].
  - apply Hobj.
Qed.

Lemma toString_TypeError (v : JSON) (e : error) :
  toString v = Throw e -> e = TypeError.
Proof.
  revert e. induction v as [| [] | | | l IH | fields] using JSON_array_ind;
    intros e H; simpl in H; try discriminate.
  - match type of H with
    | context [mbind _ ?m] => destruct m as [ps|e'] eqn:Ep; simpl in H
    end; [discriminate|]. injection H as <-.
    revert e' Ep. induction IH as [|x l Hx _ IHl]; intros e' Ep;
      [discriminate|].
    assert (Hx' : forall e0, match x with JNull => Ok [] | _ => toString x end
                             = Throw e0 -> e0 = TypeError).
    { destruct x; try discriminate; apply Hx. }
    destruct (match x with JNull => Ok [] | _ => toString x end) as [t|e0];
      simpl in Ep; [|injection Ep as <-; by apply Hx'].
    match type of Ep with
    | context [mbind _ ?m] => destruct m as [r|e1] eqn:Er; simpl in Ep
    end; [discriminate|]. injection Ep as <-. by apply IHl.
  - destruct (own fields (lit "toString")); [by injection H as <-|discriminate].
Qed.

Lemma map_String_TypeError (l : list JSON) (e : error) :
  map_String l = Throw e -> e = TypeError.
Proof.
  induction l as [|x l IH]; simpl; intros H; [discriminate|].
  destruct (toString x) as [t|e'] eqn:Ex; simpl in H.
  - destruct (map_String l) as [r|e'']; simpl in H; [discriminate|].
    injection H as <-. by apply IH.
  - injection H as <-. by apply toString_TypeError in Ex.
Qed.

Ltac split_binds H :=
  repeat match type of H with
         | context [mbind _ ?x] => destruct x eqn:?; simpl in H
         end.

Lemma normalize_item_TypeError (it : JSON) (e : error) :
  normalize_item it = Throw e -> e = TypeError.
Proof.
  unfold normalize_item. intros H.
  destruct it; simpl in H; split_binds H; try discriminate.
  all: injection H as <-.
  all: repeat match goal with
         | E : context [match ?x with _ => _ end] |- _ => destruct x eqn:?
         end; try discriminate; try congruence;
       eauto using toString_TypeError, map_String_TypeError.
Qed.

Lemma normalize_item_shape (it : JSON) (q : Question) :
  normalize_item it = Ok q ->
  trim (question q) = question q /\ length (options q) = 4%nat.
Proof.
  intros H. split; [|by apply (ServerFacts.normalize_item_four_options it)].
  unfold normalize_item in H.
  destruct it; simpl in H; try discriminate; ServerFacts.inv_binds H.
  all: injection H as <-; simpl; first [apply trim_idem | reflexivity].
Qed.

Lemma map_items_app (f : JSON -> result Question) (l1 l2 : list JSON) :
  map_items f (l1 ++ l2)
  = (a ← map_items f l1; b ← map_items f l2; Ok (a ++ b)).
Proof.
  induction l1 as [|x l1 IH]; simpl.
  - by destruct (map_items f l2).
  - destruct (f x) as [q|]; simpl; [|done]. rewrite IH.
    destruct (map_items f l1); simpl; [|done].
    by destruct (map_items f l2).
Qed.

Lemma slice_Forall {A} (P : A -> Prop) (l : list A) (b e : Z) :
  Forall P l -> Forall P (slice l b e).
Proof. intros H. unfold slice. by apply Forall_take, Forall_drop. Qed.

Lemma slice_length {A} (l : list A) (b e : Z) :
  (length (slice l b e) <= length l)%nat.
Proof. unfold slice. rewrite length_take, length_drop. lia. Qed.

(** X4. Whatever the payload, what [normalizeQuestions] returns is well
    formed: every question has a text that is trimmed and not empty and
    exactly four options; there are no more questions than items in the
    payload, nor, for a count that is not negative, than the count; and a
    payload that is not an array gives no question. *)
Theorem normalizeQuestions_shape (items : JSON) (count : Z)
    (qs : list Question) :
  normalizeQuestions items count = Ok qs ->
  Forall (fun q => question q <> [] /\ trim (question q) = question q
                   /\ length (options q) = 4%nat) qs
  /\ (0 <= count -> (length qs <= Z.to_nat count)%nat)
  /\ (forall l, items = JArr l -> (length qs <= length l)%nat)
  /\ (isArray (Some items) = None -> qs = []).
Proof.
  unfold normalizeQuestions. intros H.
  destruct items as [| | | |l|]; try (injection H as <-; repeat split;
    first [constructor | simpl; lia | discriminate | done]).
  destruct (map_items normalize_item l) as [all|] eqn:Em; simpl in H;
    [|discriminate]. injection H as <-.
  apply ServerFacts.map_items_Forall2 in Em.
  split; [|split; [|split]].
  - apply slice_Forall. apply Forall_forall. intros q Hq.
    apply list_elem_of_filter in Hq as [Hu Hq].
    apply andb_prop in Hu as [Hne _]. apply negb_true_iff in Hne.
    apply jstring_eqb_false in Hne.
    apply list_elem_of_lookup in Hq as [i Hi].
    destruct (Forall2_lookup_r _ _ _ _ _ Em Hi) as (it & _ & Hit).
    apply normalize_item_shape in Hit as [? ?]. done.
  - intros Hc. rewrite ServerFacts.slice_take by done. rewrite length_take. lia.
  - intros l' [= <-]. etrans; [apply slice_length|].
    etrans; [apply length_filter|]. apply Forall2_length in Em. lia.
  - discriminate.
Qed.

Lemma normalizeQuestions_shape_witness :
  Forall (fun q => question q <> [] /\ trim (question q) = question q
                   /\ length (options q) = 4%nat)
         [ WireFacts.item7_normalized ]
  /\ (0 <= 5 -> (length [ WireFacts.item7_normalized ] <= Z.to_nat 5)%nat)
  /\ (forall l, JArr [JObj WireFacts.item7; JNum 4] = JArr l ->
        (length [ WireFacts.item7_normalized ] <= length l)%nat)
  /\ (isArray (Some (JArr [JObj WireFacts.item7; JNum 4])) = None ->
       [ WireFacts.item7_normalized ] = []).
Proof.
  apply (normalizeQuestions_shape (JArr [JObj WireFacts.item7; JNum 4]) 5).
  vm_compute. reflexivity.
Defined.

(** X5. One null among the items of the payload makes the whole call
    raise a TypeError, whatever the other items; the handler then answers
    500 and no question is returned. *)
Theorem null_item_fails_batch (l : list JSON) (count : Z) :
  JNull ∈ l -> normalizeQuestions (JArr l) count = Throw TypeError.
Proof.
  intros Hin. unfold normalizeQuestions.
  assert (map_items normalize_item l = Throw TypeError) as ->; [|done].
  induction l as [|it l IH]; [by apply elem_of_nil in Hin|].
  simpl. destruct (normalize_item it) as [q|e] eqn:Eq; simpl.
  - apply elem_of_cons in Hin as [<-|Hin]; [discriminate|].
    by rewrite IH.
  - by apply normalize_item_TypeError in Eq as ->.
Qed.

Lemma null_item_fails_batch_witness :
  normalizeQuestions (JArr [JObj WireFacts.item7; JNull]) 5 = Throw TypeError.
Proof.
  apply (null_item_fails_batch [JObj WireFacts.item7; JNull] 5).
  repeat constructor.
Defined.

Lemma normalize_item_not_a_record (it : JSON) :
  not_a_record it ->
  exists q, normalize_item it = Ok q /\ usable q = false.
Proof.
  destruct it; simpl; try done; intros _; eexists; (split; [reflexivity|done]).
Qed.

(** X6. An item that is neither null nor an object (a number, a string, a
    boolean, an array) is passed over: the result is the one of the
    payload without it. *)
Theorem not_a_record_skipped (l1 l2 : list JSON) (it : JSON) (count : Z) :
  not_a_record it ->
  normalizeQuestions (JArr (l1 ++ it :: l2)) count
  = normalizeQuestions (JArr (l1 ++ l2)) count.
Proof.
  intros Hit. destruct (normalize_item_not_a_record it Hit) as (q & Hq & Hu).
  unfold normalizeQuestions. rewrite !map_items_app. simpl. rewrite Hq.
  destruct (map_items normalize_item l1) as [a|]; simpl; [|done].
  destruct (map_items normalize_item l2) as [b|]; simpl; [|done].
  rewrite !filter_app, filter_cons.
  destruct (decide (usable q = true)) as [Hq'|_]; [congruence|done].
Qed.

Lemma not_a_record_skipped_witness :
  normalizeQuestions (JArr ([JObj WireFacts.item7] ++ JNum 4 :: [])) 5
  = normalizeQuestions (JArr ([JObj WireFacts.item7] ++ [])) 5.
Proof.
  apply (not_a_record_skipped [JObj WireFacts.item7] [] (JNum 4) 5).
  exact I.
Defined.

(** *** The answer given as a text *)

Lemma array_indexOf_from_spec (l : list jstring) (x : jstring) (i : Z) :
  ((x ∉ l) /\ array_indexOf_from l x i = -1)
  \/ (exists k, array_indexOf_from l x i = i + Z.of_nat k
               /\ l !! k = Some x
               /\ forall j, (j < k)%nat -> l !! j <> Some x).
Proof.
  revert i. induction l as [|y l IH]; intros i.
  - left. split; [apply not_elem_of_nil|done].
  - simpl. destruct (jstring_eqb y x) eqn:E.
    + apply jstring_eqb_true in E as ->. right. exists 0%nat.
      split; [lia|]. split; [done|]. lia.
    + apply jstring_eqb_false in E.
      destruct (IH (i + 1)) as [[Hn ->]|(k & -> & Hk & Hfirst)].
      * left. split; [|done]. by apply not_elem_of_cons.
      * right. exists (S k). split; [lia|]. split; [done|].
        intros [|j] Hj; simpl; [congruence|]. apply Hfirst. lia.
Qed.

(** X7. An item without a numeric index whose [answer] is a text: if the
    text is one of the four options (as padded or truncated, and converted
    to text), the answer index is the position of its first occurrence
    among them; otherwise it is 0. *)
Theorem answer_text_resolved (fields : list (jstring * JSON)) (a : jstring)
    (q : Question) :
  isNumber (own fields (lit "answer_index")) = None ->
  isNumber (own fields (lit "answerIndex")) = None ->
  own fields (lit "answer") = Some (JStr a) ->
  normalize_item (JObj fields) = Ok q ->
  0 <= answer_index q <= 3
  /\ (a ∈ options q ->
       index (options q) (answer_index q) = Some a
       /\ forall j, (j < Z.to_nat (answer_index q))%nat ->
                    options q !! j <> Some a)
  /\ (a ∉ options q -> answer_index q = 0).
Proof.
  intros Ha Hb Hc H.
  pose proof (ServerFacts.normalize_item_four_options _ _ H) as Hlen.
  assert (Hq : answer_index q
               = if 0 <=? array_indexOf (options q) a
                 then array_indexOf (options q) a else 0).
  { unfold normalize_item, prop in H. cbn [mbind result_bind] in H.
    rewrite Ha, Hb, Hc in H. cbn [isString] in H.
    ServerFacts.inv_binds H; by injection H as <-. }
  unfold array_indexOf in Hq.
  destruct (array_indexOf_from_spec (options q) a 0)
    as [[Hn E]|(k & E & Hk & Hfirst)]; rewrite E in Hq.
  - simpl in Hq. rewrite Hq. split; [lia|]. split; [done|done].
  - replace (0 <=? 0 + Z.of_nat k) with true in Hq
      by (symmetry; apply Z.leb_le; lia).
    rewrite Hq. apply lookup_lt_Some in Hk as Hlt. split; [lia|]. split.
    + intros _. unfold index. destruct (Z.ltb_spec (0 + Z.of_nat k) 0); [lia|].
      replace (Z.to_nat (0 + Z.of_nat k)) with k by lia. split; [done|].
      exact Hfirst.
    + intros Hn. exfalso. apply Hn. by apply list_elem_of_lookup_2 in Hk.
Qed.

(** An item that names its answer by text. *)
Definition item_by_text : list (jstring * JSON) :=
  [ (lit "question", JStr (lit "Which planet has rings?"));
    (lit "options", JArr [JStr (lit "Mars"); JStr (lit "Venus");
                          JStr (lit "Saturn")]);
    (lit "answer", JStr (lit "Saturn")) ].

Definition item_by_text_normalized : Question :=
  {| question := lit "Which planet has rings?";
     options := [lit "Mars"; lit "Venus"; lit "Saturn"; lit "Option"];
     answer_index := 2;
     explanation := [] |}.

Lemma answer_text_resolved_witness :
  0 <= answer_index item_by_text_normalized <= 3
  /\ (lit "Saturn" ∈ options item_by_text_normalized ->
       index (options item_by_text_normalized)
         (answer_index item_by_text_normalized) = Some (lit "Saturn")
       /\ forall j,
            (j < Z.to_nat (answer_index item_by_text_normalized))%nat ->
            options item_by_text_normalized !! j <> Some (lit "Saturn"))
  /\ (lit "Saturn" ∉ options item_by_text_normalized ->
       answer_index item_by_text_normalized = 0).
Proof.
  apply (answer_text_resolved item_by_text (lit "Saturn")
           item_by_text_normalized); vm_compute; reflexivity.
Defined.

(** *** The loop over the candidate models *)

Lemma try_models_passed_over (before rest : list attempt) :
  Forall passed_over before ->
  try_models (before ++ rest) = try_models rest.
Proof.
  induction 1 as [|a before [-> | ->] _ IH]; [done| |]; simpl; exact IH.
Qed.

(** X8. The first candidate model that answers with a text that is not
    empty decides: the candidates before it that are not found or answer
    nothing are passed over, the candidates after it are not consulted,
    and the result is the one of [generateWithGemini] on that text. An
    error other than a missing model ends the loop with that error. If
    every candidate is passed over, the error is the one the handler
    answers with 502. *)
Theorem first_answer_decides (JSON_parse : jstring -> option JSON)
    (before : list attempt) :
  Forall passed_over before ->
  (forall t after count,
     t <> [] ->
     generate JSON_parse (before ++ Answered t :: after) count
     = generateWithGemini JSON_parse t count)
  /\ (forall m after count,
        generate JSON_parse (before ++ Rejected m :: after) count
        = Throw (Failure m None))
  /\ (forall count, generate JSON_parse before count = Throw Unavailable).
Proof.
  intros Hb. unfold generate. split; [|split].
  - intros t after count Ht. rewrite try_models_passed_over by done. simpl.
    apply jstring_eqb_false in Ht. by rewrite Ht.
  - intros m after count. by rewrite try_models_passed_over.
  - intros count. rewrite <- (app_nil_r before).
    by rewrite try_models_passed_over.
Qed.

Lemma first_answer_decides_witness :
  (forall t after count,
     t <> [] ->
     generate JS.JSON_parse ([NotFound; Answered []] ++ Answered t :: after)
       count
     = generateWithGemini JS.JSON_parse t count)
  /\ (forall m after count,
        generate JS.JSON_parse ([NotFound; Answered []] ++ Rejected m :: after)
          count
        = Throw (Failure m None))
  /\ (forall count,
        generate JS.JSON_parse [NotFound; Answered []] count
        = Throw Unavailable).
Proof.
  apply (first_answer_decides JS.JSON_parse [NotFound; Answered []]).
  constructor; [by left|]. constructor; [by right|]. constructor.
Defined.

End ServerMoreFacts.


(** * More of the browser script *)

Module ClientMore.
Import JS Client.

(** The position is never negative and, once past the first question,
    names a question of the list. *)
Definition position_ok (s : state) : Prop :=
  0 <= currentQuestionIndex s
  /\ (currentQuestionIndex s = 0
      \/ currentQuestionIndex s < Z.of_nat (length (quizData s))).

(** No question has more than four options and the page never shows more
    than four option buttons. *)
Definition shape_ok (s : state) : Prop :=
  Forall (fun q => (length (options q) <= 4)%nat) (quizData s)
  /\ (length (buttons s) <= 4)%nat.

(** Every request sent names a topic, asks for 1 to 20 questions and
    carries its list of used questions on one line. *)
Definition request_ok (r : request) : Prop :=
  topic r <> [] /\ 1 <= count r <= 20 /\ (10%N ∉ usedQuestionsText r).

Definition requests_ok (s : state) : Prop :=
  Forall request_ok (requests s).

Definition invariant_more (s : state) : Prop :=
  position_ok s /\ shape_ok s /\ requests_ok s /\ 0 <= score s.

(** What the navigation, the answers and the timer leave as it is. *)
Definition kept_by_navigation (s s' : state) : Prop :=
  quizData s' = quizData s
  /\ previousQuestions s' = previousQuestions s
  /\ requests s' = requests s
  /\ selectedAnswers s' = selectedAnswers s
  /\ score s' = score s.

(** [n] firings of the interval of [startTimer]. *)
Fixpoint ticks (n : nat) (s : state) : state :=
  match n with
  | O => s
  | S k => ticks k (settle (tick s))
  end.

(** Can every option of every question be shown as text? *)
Definition showable (s : state) : Prop :=
  Forall (fun q => Forall (fun o => exists t, toString o = Ok t) (options q))
         (quizData s).

End ClientMore.

Module ClientMoreFacts.
Import JS JSFacts Client ClientFacts ClientMore.

(** *** Position, shape and requests along the events *)

Lemma render_options_length (opts : list JSON) (i : N) (s : state) :
  (length (buttons (settle (render_options opts i s)))
   <= length (buttons s) + length opts)%nat.
Proof.
  revert i s. induction opts as [|o opts IH]; intros i s; simpl; [lia|].
  destruct (toString o) as [t|]; simpl; [|lia].
  etrans; [apply IH|]. simpl. rewrite length_app. simpl. lia.
Qed.

Lemma index_elem_of {A} (l : list A) (z : Z) (x : A) :
  index l z = Some x -> x ∈ l /\ 0 <= z < Z.of_nat (length l).
Proof.
  unfold index. destruct (Z.ltb_spec z 0); [done|]. intros Hx.
  split; [by apply list_elem_of_lookup_2 in Hx|].
  apply lookup_lt_Some in Hx. lia.
Qed.

Lemma index_is_Some {A} (l : list A) (z : Z) :
  0 <= z < Z.of_nat (length l) -> is_Some (index l z).
Proof.
  intros Hz. unfold index. destruct (Z.ltb_spec z 0); [lia|].
  apply lookup_lt_is_Some. lia.
Qed.

(** The buttons and the rest after [renderQuestion]. *)
Lemma renderQuestion_effect (s : state) :
  let s' := settle (renderQuestion s) in
  kept_by_navigation s s'
  /\ currentQuestionIndex s' = currentQuestionIndex s
  /\ active s' = active s
  /\ timeouts s' = timeouts s
  /\ (shape_ok s -> (length (buttons s') <= 4)%nat).
Proof.
  unfold renderQuestion. case_bool_decide as Hq.
  { simpl. repeat split; try done. intros _. lia. }
  destruct (index (quizData s) (currentQuestionIndex s)) as [q|] eqn:Ei.
  2:{ simpl. repeat split; try done. by intros [_ ?]. }
  match goal with
  | |- context [render_options ?o ?i ?s0] =>
      destruct (render_options_buttons o i s0) as [bs Hbs];
      pose proof (render_options_length o i s0) as Hlen
  end.
  destruct (render_options _ _ _) as [s1|s1]; simpl in *; subst s1;
    (repeat split; try done; intros [Ho _];
     apply index_elem_of in Ei as [Hin _];
     rewrite Forall_forall in Ho; specialize (Ho q Hin); simpl in *; lia).
Qed.

Lemma startTimer_effect (s : state) :
  kept_by_navigation s (startTimer s)
  /\ currentQuestionIndex (startTimer s) = currentQuestionIndex s
  /\ buttons (startTimer s) = buttons s
  /\ active (startTimer s) = active s
  /\ timeouts (startTimer s) = timeouts s
  /\ timeLeft (startTimer s) = 30.
Proof. unfold startTimer. simpl. by case_match. Qed.

Lemma stopTimer_effect (s : state) :
  kept_by_navigation s (stopTimer s)
  /\ currentQuestionIndex (stopTimer s) = currentQuestionIndex s
  /\ buttons (stopTimer s) = buttons s
  /\ active (stopTimer s) = active s
  /\ timeouts (stopTimer s) = timeouts s.
Proof. unfold stopTimer. by case_match. Qed.

Lemma kept_by_navigation_refl (s : state) : kept_by_navigation s s.
Proof. by repeat split. Qed.

Lemma kept_by_navigation_trans (s1 s2 s3 : state) :
  kept_by_navigation s1 s2 -> kept_by_navigation s2 s3 ->
  kept_by_navigation s1 s3.
Proof.
  intros (a1 & a2 & a3 & a4 & a5) (b1 & b2 & b3 & b4 & b5).
  repeat split; congruence.
Qed.

(** [renderQuestion] then [startTimer], from a state [s0] that differs
    from [s] in position and timer only. *)
Lemma render_start_effect (s : state) :
  let s' := settle (renderQuestion s >>> fun s => Done (startTimer s)) in
  kept_by_navigation s s'
  /\ currentQuestionIndex s' = currentQuestionIndex s
  /\ active s' = active s
  /\ timeouts s' = timeouts s
  /\ (shape_ok s -> (length (buttons s') <= 4)%nat).
Proof.
  pose proof (renderQuestion_effect s) as (Hk & Hi & Ha & Ht & Hb).
  destruct (renderQuestion s) as [s1|s1]; cbn [settle and_then] in *; [|done].
  destruct (startTimer_effect s1) as (Hk' & Hi' & Hb' & Ha' & Ht' & _).
  split; [by eapply kept_by_navigation_trans|].
  split; [congruence|]. split; [congruence|]. split; [congruence|].
  intros Hs. rewrite Hb'. auto.
Qed.

(** A state with the same questions, requests and score satisfies the
    invariant once its position and its buttons fit. *)
Lemma invariant_more_from (s s' : state) :
  invariant_more s ->
  quizData s' = quizData s -> requests s' = requests s ->
  score s' = score s ->
  0 <= currentQuestionIndex s'
  /\ (currentQuestionIndex s' = 0
      \/ currentQuestionIndex s' < Z.of_nat (length (quizData s))) ->
  (length (buttons s') <= 4)%nat ->
  invariant_more s'.
Proof.
  intros (Hp & [Ho Hb] & Hr & Hs) Eq Er Es Hp' Hb'.
  unfold invariant_more, position_ok, shape_ok, requests_ok.
  rewrite Eq, Er, Es. done.
Qed.

Lemma nextQuestion_more (s : state) :
  invariant_more s ->
  invariant_more (settle (nextQuestion s))
  /\ kept_by_navigation s (settle (nextQuestion s)).
Proof.
  intros Hinv. pose proof Hinv as (Hp & [Ho Hb] & Hr & Hs).
  unfold nextQuestion.
  destruct (stopTimer_effect s) as (Hk1 & Hi1 & Hb1 & _).
  pose proof Hk1 as (Eq1 & _ & Er1 & _ & Es1).
  destruct (Z.ltb_spec (currentQuestionIndex (stopTimer s))
              (Z.of_nat (length (quizData (stopTimer s))) - 1)) as [Hlt|Hge].
  - match goal with
    | |- context [renderQuestion ?s0] =>
        pose proof (render_start_effect s0) as (Hk2 & Hi2 & _ & _ & Hb2)
    end.
    cbn [settle] in *. rewrite Hi1, Eq1 in Hlt.
    assert (Hk : kept_by_navigation s
              (settle (renderQuestion
                 (set_currentQuestionIndex
                    (currentQuestionIndex (stopTimer s) + 1) (stopTimer s))
               >>> fun s => Done (startTimer s)))).
    { eapply kept_by_navigation_trans; [exact Hk1|exact Hk2]. }
    split; [|exact Hk]. destruct Hk as (Eq & _ & Er & _ & Es).
    apply (invariant_more_from s); try done.
    + rewrite Hi2. simpl. rewrite Hi1. destruct Hp as [? _]. lia.
    + apply Hb2. split; simpl; [by rewrite Eq1|by rewrite Hb1].
  - cbn [settle]. unfold finishQuiz, showSection.
    destruct (stopTimer_effect (stopTimer s)) as (Hk2 & Hi2 & Hb2 & _).
    assert (Hk : kept_by_navigation s (set_active Results (stopTimer (stopTimer s)))).
    { eapply kept_by_navigation_trans; [exact Hk1|exact Hk2]. }
    split; [|exact Hk]. destruct Hk as (Eq & _ & Er & _ & Es).
    apply (invariant_more_from s); try done.
    + simpl. rewrite Hi2, Hi1. done.
    + simpl. by rewrite Hb2, Hb1.
Qed.

Lemma previousQuestion_more (s : state) :
  invariant_more s ->
  invariant_more (settle (previousQuestion s))
  /\ kept_by_navigation s (settle (previousQuestion s)).
Proof.
  intros Hinv. pose proof Hinv as (Hp & [Ho Hb] & Hr & Hs).
  unfold previousQuestion.
  destruct (Z.ltb_spec 0 (currentQuestionIndex s)) as [Hlt|Hge].
  2:{ split; [done|apply kept_by_navigation_refl]. }
  destruct (stopTimer_effect s) as (Hk1 & Hi1 & Hb1 & _).
  pose proof Hk1 as (Eq1 & _ & Er1 & _ & Es1).
  match goal with
  | |- context [renderQuestion ?s0] =>
      pose proof (render_start_effect s0) as (Hk2 & Hi2 & _ & _ & Hb2)
  end.
  cbn [settle] in *.
  assert (Hk : kept_by_navigation s
            (settle (renderQuestion
               (set_currentQuestionIndex
                  (currentQuestionIndex (stopTimer s) - 1) (stopTimer s))
             >>> fun s => Done (startTimer s)))).
  { eapply kept_by_navigation_trans; [exact Hk1|exact Hk2]. }
  split; [|exact Hk]. destruct Hk as (Eq & _ & Er & _ & Es).
  apply (invariant_more_from s); try done.
  - rewrite Hi2. simpl. rewrite Hi1. destruct Hp as [? [?|?]]; lia.
  - apply Hb2. split; simpl; [by rewrite Eq1|by rewrite Hb1].
Qed.

(** *** Answers and the countdown *)

Lemma showAnswerFeedback_effect (i : Z) (s : state) :
  let s' := settle (showAnswerFeedback i s) in
  kept_by_navigation s (set_score (score s) s')
  /\ currentQuestionIndex s' = currentQuestionIndex s
  /\ active s' = active s
  /\ length (buttons s') = length (buttons s)
  /\ score s <= score s' <= score s + 1.
Proof.
  unfold showAnswerFeedback, kept_by_navigation.
  destruct (index (quizData s) (currentQuestionIndex s)) as [q|]; simpl.
  2:{ repeat split; lia. }
  repeat case_match; simplify_eq; simpl;
    rewrite ?length_fmap, ?length_alter; repeat split; lia.
Qed.

Lemma onOptionClicked_effect (i : Z) (s : state) :
  let s' := onOptionClicked i s in
  quizData s' = quizData s
  /\ previousQuestions s' = previousQuestions s
  /\ requests s' = requests s
  /\ score s' = score s
  /\ currentQuestionIndex s' = currentQuestionIndex s
  /\ active s' = active s
  /\ length (buttons s') = length (buttons s).
Proof.
  unfold onOptionClicked. case_bool_decide; [done|].
  case_match; simpl; rewrite ?length_alter, ?length_fmap; done.
Qed.

Lemma showAnswerFeedback_more (i : Z) (s : state) :
  invariant_more s -> invariant_more (settle (showAnswerFeedback i s)).
Proof.
  intros Hinv. pose proof Hinv as (Hp & [Ho Hb] & Hr & Hs).
  destruct (showAnswerFeedback_effect i s) as (Hk & Hi & _ & Hl & Hsc).
  destruct Hk as (Eq & _ & Er & _). simpl in Eq, Er.
  unfold invariant_more, position_ok, shape_ok, requests_ok.
  rewrite Eq, Er, Hi, Hl. destruct Hp as [? ?].
  split; [done|]. split; [done|]. split; [done|lia].
Qed.

Lemma onOptionClicked_more (i : Z) (s : state) :
  invariant_more s -> invariant_more (onOptionClicked i s).
Proof.
  intros Hinv. pose proof Hinv as (Hp & [Ho Hb] & Hr & Hs).
  destruct (onOptionClicked_effect i s) as (Eq & _ & Er & Es & Hi & _ & Hl).
  apply (invariant_more_from s); try done.
  - by rewrite Hi.
  - by rewrite Hl.
Qed.

Lemma tick_more (s : state) :
  invariant_more s -> invariant_more (settle (tick s)).
Proof.
  intros Hinv. unfold tick. case_match; [|done].
  by apply showAnswerFeedback_more.
Qed.

Lemma restartQuiz_more (s : state) :
  invariant_more s -> invariant_more (settle (restartQuiz s)).
Proof.
  intros Hinv. pose proof Hinv as (Hp & [Ho Hb] & Hr & Hs).
  unfold restartQuiz. case_bool_decide as Hq; cbn [settle].
  { unfold invariant_more, position_ok, shape_ok, requests_ok. simpl.
    split; [lia|]. done. }
  match goal with
  | |- context [renderQuestion ?s0] =>
      pose proof (render_start_effect s0) as (Hk2 & Hi2 & _ & _ & Hb2)
  end.
  cbn [settle] in *. destruct Hk2 as (Eq & _ & Er & _ & Es).
  unfold invariant_more, position_ok, shape_ok, requests_ok.
  rewrite Eq, Er, Es, Hi2. simpl.
  split; [lia|]. split; [|done]. split; [done|]. by apply Hb2.
Qed.

(** *** Requests *)

Lemma join_free (c : N) (sep : jstring) (parts : list jstring) :
  (c ∉ sep) -> Forall (fun p => c ∉ p) parts -> c ∉ join sep parts.
Proof.
  intros Hsep Hparts. destruct Hparts as [|p ps Hp Hps]; simpl.
  { apply not_elem_of_nil. }
  apply not_elem_of_app. split; [done|].
  induction Hps as [|q qs Hq Hqs IH]; simpl.
  - apply not_elem_of_nil.
  - rewrite !not_elem_of_app. done.
Qed.

Lemma newlines_to_spaces_free (q : jstring) : 10%N ∉ newlines_to_spaces q.
Proof.
  unfold newlines_to_spaces. intros Hin.
  apply list_elem_of_fmap in Hin as (c & Hc & _).
  destruct (N.eqb_spec c 10); [done|]. by subst.
Qed.

Lemma buildUsedQuestionsText_free (s : state) :
  10%N ∉ buildUsedQuestionsText s.
Proof.
  unfold buildUsedQuestionsText. case_bool_decide.
  { apply not_elem_of_nil. }
  apply not_elem_of_app. split.
  { apply (bool_decide_unpack _). vm_compute. exact I. }
  apply join_free.
  { apply (bool_decide_unpack _). vm_compute. exact I. }
  apply Forall_fmap, Forall_forall. intros q _. apply newlines_to_spaces_free.
Qed.

Lemma showLoading_effect (on : bool) (m : jstring) (s : state) :
  let s' := showLoading on m s in
  kept_by_navigation s s'
  /\ currentQuestionIndex s' = currentQuestionIndex s
  /\ active s' = active s
  /\ requests s' = requests s
  /\ pending s' = pending s
  /\ alerts s' = alerts s
  /\ (length (buttons s') <= length (buttons s))%nat
  /\ (on = false -> buttons s' = buttons s).
Proof.
  unfold showLoading, kept_by_navigation.
  repeat case_match; simpl; repeat split; try done; lia.
Qed.

Lemma send_effect (k : continuation) (t : jstring) (c : Z) (s : state) :
  let s' := send k t c s in
  quizData s' = quizData s
  /\ previousQuestions s' = previousQuestions s
  /\ score s' = score s
  /\ currentQuestionIndex s' = currentQuestionIndex s
  /\ active s' = active s
  /\ alerts s' = alerts s
  /\ (length (buttons s') <= length (buttons s))%nat
  /\ pending s' = pending s ++ [k]
  /\ requests s' = requests s ++
       [{| topic := t; count := c;
           usedQuestionsText := buildUsedQuestionsText s |}].
Proof.
  unfold send.
  destruct (showLoading_effect true (lit "Generating questions" ++ [8230%N]) s)
    as ((Eq & Ep & _ & _ & Es) & Hi & Ha & Er & Epe & Eal & Hb & _).
  set (s1 := showLoading true _ s) in *. clearbody s1.
  assert (buildUsedQuestionsText s1 = buildUsedQuestionsText s) as ->.
  { unfold buildUsedQuestionsText. by rewrite Ep. }
  cbn. rewrite Er, Epe. done.
Qed.

Lemma send_more (k : continuation) (t : jstring) (c : Z) (s : state) :
  invariant_more s -> t <> [] -> 1 <= c <= 20 ->
  invariant_more (send k t c s).
Proof.
  intros (Hp & [Ho Hb] & Hr & Hs) Ht Hc.
  destruct (send_effect k t c s) as (Eq & _ & Es & Hi & _ & _ & Hl & _ & Er).
  unfold invariant_more, position_ok, shape_ok, requests_ok.
  rewrite Eq, Es, Hi, Er.
  split; [done|]. split; [split; [done|lia]|]. split; [|done].
  apply Forall_app. split; [done|]. apply Forall_singleton.
  split; [done|]. split; [done|]. apply buildUsedQuestionsText_free.
Qed.

(** *** A round of fetching *)

(** What a round of fetching leaves as it is: the position, the answers
    given, the score, the page and everything scheduled or waiting. *)
Definition view (s : state) :=
  (currentQuestionIndex s, selectedAnswers s, score s, requests s,
   (buttons s, questionText s, active s, timeouts s),
   (currentTopic s, currentCount s, timeLeft s, timerHandle s, intervals s,
    pending s)).

(** [s'] is [s] with the entries [added] at the end of its question list
    and their texts at the end of its ledger. *)
Definition grown (added : list Question) (s s' : state) : Prop :=
  view s' = view s
  /\ quizData s' = quizData s ++ added
  /\ previousQuestions s' = previousQuestions s ++ (question <$> added)
  /\ Forall (fun q => (length (options q) <= 4)%nat) added
  /\ Forall (fun q => q.(question) <> []) added.

Lemma append_candidate_grown (q : JSON) (s s' : state) (n : Z) :
  append_candidate q s = Ok (s', n) ->
  exists added, grown added s s' /\ n = Z.of_nat (length added)
                /\ alerts s' = alerts s /\ warnings s' = warnings s.
Proof.
  intros H. apply append_candidate_spec in H
    as [[-> ->]|(-> & qtext & entry & Ht & Hne & _ & _ & Hn & ->)].
  - exists []. unfold grown. simpl. rewrite !app_nil_r. done.
  - exists [entry]. apply normalize_fields_spec in Hn as (Hq & _ & Hl).
    unfold grown. simpl. rewrite Hq.
    repeat split; try done; apply Forall_singleton; congruence.
Qed.

Lemma grown_trans (a b : list Question) (s s1 s2 : state) :
  grown a s s1 -> grown b s1 s2 -> grown (a ++ b) s s2.
Proof.
  intros (Hv & Hq & Hp & Ho & Hn) (Hv' & Hq' & Hp' & Ho' & Hn').
  unfold grown. rewrite Hv', Hv, Hq', Hq, Hp', Hp, fmap_app, !app_assoc.
  repeat split; try done; by apply Forall_app.
Qed.

Lemma append_all_grown (arr : list JSON) (s s' : state) (a a' : Z) (t : bool) :
  append_all arr s a = (s', a', t) ->
  exists added, grown added s s' /\ a' = a + Z.of_nat (length added)
                /\ alerts s' = alerts s /\ warnings s' = warnings s.
Proof.
  revert s a. induction arr as [|q arr IH]; intros s a H; simpl in H.
  - injection H as <- <- <-. exists []. unfold grown. simpl.
    rewrite !app_nil_r. repeat split; try done; lia.
  - destruct (append_candidate q s) as [[s1 n]|] eqn:Eq.
    + apply append_candidate_grown in Eq as (l1 & Hg1 & -> & Ha1 & Hw1).
      apply IH in H as (l2 & Hg2 & -> & Ha2 & Hw2).
      exists (l1 ++ l2). split; [by eapply grown_trans|].
      rewrite length_app. split; [lia|]. split; congruence.
    + injection H as <- <- <-. exists []. unfold grown. simpl.
      rewrite !app_nil_r. repeat split; try done; lia.
Qed.

(** What a round does, whatever the answer. *)
Definition round (s s' : state) (ok : bool) : Prop :=
  (exists added, grown added s s')
  /\ (if ok then quizData s' <> [] /\ alerts s' = alerts s
      else exists m, alerts s' = alerts s ++ [m]).

Lemma round_failed (added : list Question) (m : jstring) (s s1 : state) :
  grown added s s1 -> alerts s1 = alerts s ->
  round s (showLoading false [] (alert m s1)) false.
Proof.
  intros (Hv & Hq & Hp & Ho & Hn) Ha.
  destruct (showLoading_effect false [] (alert m s1))
    as ((Eq & Ep & _ & Esel & Es) & Hi & Hac & Er & Epe & Eal & _ & Hb).
  split.
  - exists added. unfold grown. rewrite Eq, Ep. simpl.
    split; [|done]. rewrite <- Hv. unfold view.
    rewrite Hi, Esel, Es, Er, Hb, Hac, Epe by done.
    unfold showLoading, alert. repeat case_match; done.
  - exists m. rewrite Eal. simpl. by rewrite Ha.
Qed.

Lemma round_caught (added : list Question) (s s1 : state) :
  grown added s s1 -> alerts s1 = alerts s ->
  round s (caught s1).2 false.
Proof. apply round_failed. Qed.

Lemma grown_refl (s : state) : grown [] s s.
Proof. unfold grown. simpl. rewrite !app_nil_r. done. Qed.

Lemma fetchAndAppendQuestions_round (r : fetch_result) (s s' : state)
    (ok : bool) :
  fetchAndAppendQuestions r s = (ok, s') -> round s s' ok.
Proof.
  unfold fetchAndAppendQuestions. intros H.
  pose proof (grown_refl s) as Hs.
  destruct r as [|okr data].
  { injection H as <- <-. by eapply round_caught. }
  destruct (negb okr).
  { repeat case_match; injection H as <- <-;
      by (eapply round_failed || eapply round_caught). }
  destruct (prop data "questions") as [a|].
  2:{ injection H as <- <-. by eapply round_caught. }
  destruct (prop data "quiz") as [b|].
  2:{ injection H as <- <-. by eapply round_caught. }
  destruct (or_else (or_else a b) (Some (JArr []))) as [[| | | |[|q rest]|]|];
    try (injection H as <- <-; by eapply round_failed).
  destruct (append_all (q :: rest) s 0) as [[s1 added] threw] eqn:Ea.
  apply append_all_grown in Ea as (l & Hg & -> & Ha & Hw).
  destruct threw.
  { injection H as <- <-. by eapply round_caught. }
  destruct ((0 + Z.of_nat (length l) =? 0) && bool_decide (quizData s1 = []))
    eqn:Ez.
  { injection H as <- <-. by eapply round_failed. }
  injection H as <- <-.
  match goal with
  | |- context [showLoading false [] ?s0] =>
      destruct (showLoading_effect false [] s0)
        as ((Eq & Ep & _ & Esel & Es) & Hi & Hac & Er & Epe & Eal & _ & Hb);
      assert (Hs0 : grown l s s0 /\ alerts s0 = alerts s)
  end.
  { case_match; [|done]. destruct Hg as (Hv & Hg). unfold grown.
    simpl. split; [|done]. split; [|done]. rewrite <- Hv. done. }
  destruct Hs0 as [(Hv & Hq & Hp & Ho & Hn) Ha0].
  split.
  - exists l. unfold grown. rewrite Eq, Ep. split; [|done].
    rewrite <- Hv. unfold view. rewrite Hi, Esel, Es, Er, Hb, Hac, Epe by done.
    unfold showLoading. repeat case_match; done.
  - rewrite Eq, Eal, Ha0. split; [|done]. rewrite Hq.
    apply andb_false_iff in Ez as [Ez|Ez].
    + apply Z.eqb_neq in Ez. destruct l; [simpl in Ez; lia|].
      intros E. by apply app_eq_nil in E as [_ ?].
    + apply bool_decide_eq_false in Ez. destruct Hg as (_ & Hq1 & _).
      by rewrite <- Hq1.
Qed.

(** *** The invariant along the events *)

Lemma invariant_more_same (s s' : state) :
  invariant_more s ->
  quizData s' = quizData s -> requests s' = requests s ->
  score s' = score s ->
  currentQuestionIndex s' = currentQuestionIndex s ->
  buttons s' = buttons s ->
  invariant_more s'.
Proof.
  unfold invariant_more, position_ok, shape_ok, requests_ok.
  intros H -> -> -> -> ->. done.
Qed.

Lemma invariant_more_initial (overlay : bool) : invariant_more (initial overlay).
Proof.
  unfold invariant_more, position_ok, shape_ok, requests_ok. simpl.
  split; [lia|]. split; [split; [constructor|lia]|]. split; [constructor|lia].
Qed.

Lemma round_more (s s' : state) (ok : bool) :
  round s s' ok -> invariant_more s -> invariant_more s'.
Proof.
  intros [(added & Hv & Hq & _ & Ho & _) _] ([Hp0 Hp1] & [Hos Hb] & Hr & Hs).
  injection Hv as Hi _ Hsc Hr' Hb' _ _ _ _ _ _ _ _ _.
  unfold invariant_more, position_ok, shape_ok, requests_ok.
  rewrite Hi, Hsc, Hr', Hb', Hq, length_app.
  split; [split; [done|lia]|]. split; [|done]. split; [|done].
  by apply Forall_app.
Qed.

Lemma initQuiz_send_more (t : jstring) (c : Z) (s : state) :
  invariant_more s -> t <> [] -> 1 <= c <= 20 ->
  invariant_more (initQuiz_send t c s).
Proof.
  intros (Hp & [Ho Hb] & Hr & Hs) Ht Hc. unfold initQuiz_send.
  apply send_more; [|done..].
  unfold invariant_more, position_ok, shape_ok, requests_ok. simpl.
  split; [lia|]. split; [split; [constructor|lia]|]. split; [done|lia].
Qed.

Lemma initQuiz_resume_more (r : fetch_result) (s : state) :
  invariant_more s -> invariant_more (settle (initQuiz_resume r s)).
Proof.
  intros Hinv. unfold initQuiz_resume.
  destruct (fetchAndAppendQuestions r s) as [ok s1] eqn:Ef.
  apply fetchAndAppendQuestions_round in Ef.
  pose proof (round_more _ _ _ Ef Hinv) as Hinv1.
  destruct ok; [|done].
  match goal with
  | |- context [renderQuestion ?s0] =>
      pose proof (render_start_effect s0) as (Hk2 & Hi2 & _ & _ & Hb2)
  end.
  cbn [settle] in *. destruct Hk2 as (Eq & _ & Er & _ & Es).
  destruct Hinv1 as (Hp & Hsh & Hr & Hs).
  unfold invariant_more, position_ok, shape_ok, requests_ok.
  rewrite Eq, Er, Es, Hi2. simpl.
  split; [done|]. split; [|done]. split; [apply Hsh|]. by apply Hb2.
Qed.

Lemma generateMoreQuestions_send_more (n : Z) (s : state) :
  invariant_more s -> invariant_more (generateMoreQuestions_send n s).
Proof.
  intros Hinv. unfold generateMoreQuestions_send.
  destruct (jstring_eqb (currentTopic s) []) eqn:Et.
  - by apply (invariant_more_same s).
  - apply send_more; [done| |lia]. by apply jstring_eqb_false.
Qed.

Lemma generateMoreQuestions_resume_more (r : fetch_result) (s : state) :
  invariant_more s -> invariant_more (generateMoreQuestions_resume r s).
Proof.
  intros Hinv. unfold generateMoreQuestions_resume.
  destruct (fetchAndAppendQuestions r s) as [ok s1] eqn:Ef.
  apply fetchAndAppendQuestions_round in Ef.
  pose proof (round_more _ _ _ Ef Hinv) as Hinv1.
  destruct ok; [|done]. by apply (invariant_more_same s1).
Qed.

Lemma modal_start_more (t : jstring) (c : Z) (s : state) :
  invariant_more s -> invariant_more (modal_start t c s).
Proof.
  intros Hinv. unfold modal_start.
  destruct (jstring_eqb (trim t) []) eqn:Et; [done|].
  destruct ((c <? 1) || (20 <? c)) eqn:Ec; [done|].
  apply orb_false_elim in Ec as [?%Z.ltb_ge ?%Z.ltb_ge].
  apply initQuiz_send_more; [done| |lia]. by apply jstring_eqb_false.
Qed.

Lemma keydown_more (key : jstring) (s : state) :
  invariant_more s -> invariant_more (settle (keydown key s)).
Proof.
  intros Hinv. unfold keydown. destruct (active s); try done.
  case_bool_decide; [by apply onOptionClicked_more|].
  repeat case_match; try done.
  - by apply nextQuestion_more.
  - by apply previousQuestion_more.
Qed.

Lemma step_more (e : event) (s : state) :
  invariant_more s -> invariant_more (step e s).
Proof.
  intros Hinv. destruct e; simpl.
  - by apply modal_start_more.
  - by apply generateMoreQuestions_send_more.
  - destruct (pending s !! k) as [[|]|]; [| |done].
    + apply initQuiz_resume_more. by apply (invariant_more_same s).
    + apply generateMoreQuestions_resume_more.
      by apply (invariant_more_same s).
  - by apply nextQuestion_more.
  - by apply previousQuestion_more.
  - by apply restartQuiz_more.
  - by apply (invariant_more_same s).
  - destruct (buttons s !! i) as [b|]; [|done].
    destruct (enabled b); [|done]. by apply onOptionClicked_more.
  - by apply keydown_more.
  - case_bool_decide; [|done]. by apply tick_more.
  - destruct (timeouts s !! k) as [[d cb]|]; [|done].
    assert (invariant_more (set_timeouts (delete k (timeouts s)) s))
      by by apply (invariant_more_same s).
    destruct cb; simpl.
    + by apply showAnswerFeedback_more.
    + by apply nextQuestion_more.
Qed.

Lemma run_more (evs : list event) (s : state) :
  invariant_more s -> invariant_more (run evs s).
Proof.
  unfold run. revert s. induction evs as [|e evs IH]; intros s Hinv; simpl.
  - done.
  - apply IH. by apply step_more.
Qed.

(** X9. Whatever the events of a session, the position names a stored
    question as soon as there is one: either the list is empty and the
    position is 0, or [quizData[currentQuestionIndex]] exists. The score is
    never negative. *)
Theorem position_in_range (overlay : bool) (evs : list event) :
  let s := run evs (initial overlay) in
  ((quizData s = [] /\ currentQuestionIndex s = 0)
   \/ exists q, index (quizData s) (currentQuestionIndex s) = Some q)
  /\ 0 <= score s.
Proof.
  intros s.
  destruct (run_more evs _ (invariant_more_initial overlay))
    as ([Hp0 Hp1] & _ & _ & Hs).
  fold s in Hp0, Hp1, Hs. split; [|done].
  destruct (quizData s) as [|q0 l] eqn:Eq.
  - left. split; [done|]. simpl in Hp1. lia.
  - right. apply index_is_Some. rewrite <- Eq in *.
    destruct Hp1 as [->|?]; [|lia]. rewrite Eq. simpl. lia.
Qed.


(** X11. Every request a session sends to the server names a topic that
    is not empty, asks for 1 to 20 questions, and carries a list of used
    questions without a line feed. *)
Theorem requests_well_formed (overlay : bool) (evs : list event) :
  Forall (fun r => topic r <> [] /\ 1 <= count r <= 20
                   /\ (10%N ∉ usedQuestionsText r))
         (requests (run evs (initial overlay))).
Proof.
  by destruct (run_more evs _ (invariant_more_initial overlay))
    as (_ & _ & Hr & _).
Qed.


(** *** The countdown *)

(** What the state keeps while the countdown runs. *)
Definition ticking (s s' : state) : Prop :=
  quizData s' = quizData s
  /\ currentQuestionIndex s' = currentQuestionIndex s
  /\ score s' = score s
  /\ selectedAnswers s' = selectedAnswers s
  /\ timerHandle s' = timerHandle s
  /\ intervals s' = intervals s
  /\ active s' = active s.

Lemma feedback_disables (i : Z) (s : state) :
  is_Some (index (quizData s) (currentQuestionIndex s)) ->
  Forall (fun b => enabled b = false)
         (buttons (settle (showAnswerFeedback i s))).
Proof.
  intros [q Hq]. unfold showAnswerFeedback. rewrite Hq.
  repeat case_match; simplify_eq; simpl;
    apply Forall_fmap, Forall_forall; done.
Qed.

(** [showAnswerFeedback(-1)] on a question whose answer index is not
    negative. *)
Lemma timed_out_effect (s : state) (q : Question) :
  index (quizData s) (currentQuestionIndex s) = Some q ->
  0 <= answer_index q ->
  let s' := settle (showAnswerFeedback (-1) s) in
  ticking s s'
  /\ timeLeft s' = timeLeft s
  /\ timeouts s' = timeouts s ++ [(1200, Advance)].
Proof.
  intros Hq Ha. unfold showAnswerFeedback. rewrite Hq.
  replace (-1 =? answer_index q) with false by (symmetry; apply Z.eqb_neq; lia).
  simpl. unfold ticking. simpl. done.
Qed.

Lemma tick_effect (s : state) (q : Question) :
  index (quizData s) (currentQuestionIndex s) = Some q ->
  0 <= answer_index q ->
  let s' := settle (tick s) in
  ticking s s'
  /\ timeLeft s' = timeLeft s - 1
  /\ timeouts s' = timeouts s
                   ++ (if timeLeft s - 1 <=? 0 then [(1200, Advance)] else []).
Proof.
  intros Hq Ha. unfold tick. cbn [timeLeft set_timeLeft].
  destruct (timeLeft s - 1 <=? 0).
  - match goal with
    | |- context [showAnswerFeedback _ ?s0] =>
        destruct (timed_out_effect s0 q Hq Ha) as (Hk & Ht & Hto)
    end.
    done.
  - unfold ticking. simpl. by rewrite app_nil_r.
Qed.

Lemma ticks_effect (n : nat) (s : state) (q : Question) :
  index (quizData s) (currentQuestionIndex s) = Some q ->
  0 <= answer_index q ->
  ticking s (ticks n s)
  /\ timeLeft (ticks n s) = timeLeft s - Z.of_nat n
  /\ timeouts (ticks n s)
     = timeouts s
       ++ replicate (Z.to_nat (Z.min (Z.of_nat n)
                                 (Z.of_nat n - timeLeft s + 1)))
                    (1200, Advance).
Proof.
  revert s. induction n as [|n IH]; intros s Hq Ha.
  { cbn [ticks]. unfold ticking.
    replace (Z.to_nat _) with 0%nat by lia. simpl. rewrite app_nil_r.
    repeat split; try done; lia. }
  cbn [ticks].
  destruct (tick_effect s q Hq Ha) as (Hk & Ht & Hto).
  pose proof Hk as (Eq & Ei & _).
  destruct (IH (settle (tick s))) as (Hk' & Ht' & Hto'); [by rewrite Eq, Ei|done|].
  split.
  { destruct Hk as (? & ? & ? & ? & ? & ? & ?).
    destruct Hk' as (? & ? & ? & ? & ? & ? & ?).
    unfold ticking. repeat split; congruence. }
  split; [lia|].
  rewrite Hto', Hto, Ht, <- app_assoc. f_equal.
  destruct (Z.leb_spec (timeLeft s - 1) 0).
  - replace (Z.to_nat (Z.min (Z.of_nat (S n)) _)) with (S n) by lia.
    replace (Z.to_nat (Z.min (Z.of_nat n) _)) with n by lia. done.
  - simpl. f_equal. lia.
Qed.

(** X13. The countdown of a question. Started at 30, the interval
    schedules nothing for its first 29 firings; every firing from the 30th
    on runs the feedback for no selection and schedules one more advance,
    for nothing stops the interval at zero. Timing out never scores, and
    position, answers and timer handle stay as they are. *)
Theorem countdown (s : state) (q : Question) (n : nat) :
  index (quizData s) (currentQuestionIndex s) = Some q ->
  0 <= answer_index q ->
  timeLeft s = 30 ->
  let s' := ticks n s in
  timeLeft s' = 30 - Z.of_nat n
  /\ timeouts s' = timeouts s ++ replicate (n - 29) (1200, Advance)
  /\ score s' = score s
  /\ currentQuestionIndex s' = currentQuestionIndex s
  /\ selectedAnswers s' = selectedAnswers s
  /\ timerHandle s' = timerHandle s
  /\ intervals s' = intervals s.
Proof.
  intros Hq Ha Ht.
  destruct (ticks_effect n s q Hq Ha) as ((_ & Hi & Hs & Hsel & Hh & Hiv & _) & Htl & Hto).
  rewrite Ht in Htl, Hto. cbn zeta.
  replace (n - 29)%nat
    with (Z.to_nat (Z.min (Z.of_nat n) (Z.of_nat n - 30 + 1))) by lia.
  done.
Qed.

(** X14. Once the feedback of a question has run, a click on any option
    button is ignored: the buttons take no pointer events. The number keys
    go past the buttons: a key still records a selection and schedules
    another feedback. *)
Theorem clicks_ignored_after_feedback (s : state) (i : Z) (j : nat) :
  is_Some (index (quizData s) (currentQuestionIndex s)) ->
  let s' := settle (showAnswerFeedback i s) in
  step (OptionClicked j) s' = s'
  /\ (active s = Quiz -> buttons s <> [] ->
      timeouts (step (KeyDown (lit "1")) s')
      = timeouts s' ++ [(400, Feedback 0)]).
Proof.
  intros Hq s'. pose proof (feedback_disables i s Hq) as Hd. fold s' in Hd.
  split.
  - simpl. destruct (buttons s' !! j) as [b|] eqn:Eb; [|done].
    rewrite Forall_forall in Hd. rewrite (Hd b); [done|].
    by eapply list_elem_of_lookup_2.
  - intros Hact Hb.
    destruct (showAnswerFeedback_effect i s) as (_ & _ & Ha & Hl & _).
    fold s' in Ha, Hl.
    assert (buttons s' <> []) as Hb'.
    { intros E. rewrite E in Hl. destruct (buttons s); [done|]. discriminate. }
    cbn [step]. unfold keydown. rewrite Ha, Hact.
    rewrite bool_decide_eq_true_2
      by (apply (bool_decide_unpack _); vm_compute; exact I).
    cbn [settle].
    change (digits_value (lit "1") - 1) with 0.
    by destruct (onOptionClicked_records 0 s' Hb') as [_ ->].
Qed.

(** *** Navigation *)

Lemma nextQuestion_effect (s : state) :
  let s' := settle (nextQuestion s) in
  kept_by_navigation s s'
  /\ timeouts s' = timeouts s
  /\ (if currentQuestionIndex s <? Z.of_nat (length (quizData s)) - 1
      then currentQuestionIndex s' = currentQuestionIndex s + 1
           /\ active s' = active s
      else currentQuestionIndex s' = currentQuestionIndex s
           /\ active s' = Results
           /\ timerHandle s' = None
           /\ buttons s' = buttons s
           /\ intervals s'
              = intervals s ∖ match timerHandle s with
                              | Some h => {[h]}
                              | None => ∅
                              end).
Proof.
  unfold nextQuestion.
  destruct (stopTimer_effect s) as (Hk1 & Hi1 & Hb1 & Ha1 & Ht1).
  pose proof Hk1 as (Eq1 & _).
  rewrite Hi1, Eq1.
  destruct (Z.ltb_spec (currentQuestionIndex s)
              (Z.of_nat (length (quizData s))  - 1)) as [Hlt|Hge].
  - match goal with
    | |- context [renderQuestion ?s0] =>
        pose proof (render_start_effect s0) as (Hk2 & Hi2 & Ha2 & Ht2 & _)
    end.
    cbn zeta in *.
    split; [by eapply kept_by_navigation_trans|].
    split; [by rewrite Ht2|]. split; [by rewrite Hi2|by rewrite Ha2].
  - cbn [settle]. unfold finishQuiz, showSection.
    destruct (stopTimer_effect (stopTimer s)) as (Hk2 & Hi2 & Hb2 & Ha2 & Ht2).
    split; [by eapply kept_by_navigation_trans|].
    simpl. split; [congruence|]. split; [congruence|]. split; [done|].
    unfold stopTimer, clearInterval.
    destruct (timerHandle s) as [h|] eqn:Eh; simpl; rewrite ?Eh.
    + split; [done|]. split; [done|]. simpl. set_solver.
    + by rewrite difference_empty_L.
Qed.

Lemma previousQuestion_effect (s : state) :
  let s' := settle (previousQuestion s) in
  kept_by_navigation s s'
  /\ timeouts s' = timeouts s
  /\ active s' = active s
  /\ currentQuestionIndex s'
     = (if 0 <? currentQuestionIndex s then currentQuestionIndex s - 1
        else currentQuestionIndex s).
Proof.
  unfold previousQuestion.
  destruct (Z.ltb_spec 0 (currentQuestionIndex s)) as [Hlt|Hge].
  2:{ split; [apply kept_by_navigation_refl|done]. }
  destruct (stopTimer_effect s) as (Hk1 & Hi1 & Hb1 & Ha1 & Ht1).
  match goal with
  | |- context [renderQuestion ?s0] =>
      pose proof (render_start_effect s0) as (Hk2 & Hi2 & Ha2 & Ht2 & _)
  end.
  cbn zeta in *.
  split; [by eapply kept_by_navigation_trans|].
  split; [by rewrite Ht2|]. split; [by rewrite Ha2|by rewrite Hi2, <- Hi1].
Qed.

(** X15. Previous and next undo each other on the position: from a
    question that is not the first, previous then next comes back to it;
    from a question that is not the last, next then previous does. Neither
    touches the questions, the ledger, the answers given or the score, and
    neither cancels a feedback or an advance that is waiting. *)
Theorem navigation_round_trip (s : state) :
  let back_forth := settle (nextQuestion (settle (previousQuestion s))) in
  let forth_back := settle (previousQuestion (settle (nextQuestion s))) in
  (0 < currentQuestionIndex s < Z.of_nat (length (quizData s)) ->
   currentQuestionIndex back_forth = currentQuestionIndex s)
  /\ (0 <= currentQuestionIndex s < Z.of_nat (length (quizData s)) - 1 ->
      currentQuestionIndex forth_back = currentQuestionIndex s)
  /\ kept_by_navigation s back_forth /\ kept_by_navigation s forth_back
  /\ timeouts back_forth = timeouts s /\ timeouts forth_back = timeouts s.
Proof.
  destruct (previousQuestion_effect s) as (Hk1 & Ht1 & _ & Hi1).
  destruct (nextQuestion_effect (settle (previousQuestion s)))
    as (Hk2 & Ht2 & Hi2).
  destruct (nextQuestion_effect s) as (Hk3 & Ht3 & Hi3).
  destruct (previousQuestion_effect (settle (nextQuestion s)))
    as (Hk4 & Ht4 & _ & Hi4).
  cbn zeta in *.
  split; [|split; [|split; [|split; [|split]]]].
  - intros [H0 H1]. destruct Hk1 as (Eq & _).
    rewrite Eq, Hi1 in Hi2.
    destruct (Z.ltb_spec 0 (currentQuestionIndex s)); [|lia].
    destruct (Z.ltb_spec (currentQuestionIndex s - 1)
                (Z.of_nat (length (quizData s)) - 1)); [|lia].
    destruct Hi2 as [-> _]. lia.
  - intros [H0 H1].
    destruct (Z.ltb_spec (currentQuestionIndex s)
                (Z.of_nat (length (quizData s)) - 1)); [|lia].
    destruct Hi3 as [Hi3 _]. rewrite Hi3 in Hi4.
    destruct (Z.ltb_spec 0 (currentQuestionIndex s + 1)); [|lia].
    rewrite Hi4. lia.
  - exact (kept_by_navigation_trans _ _ _ Hk1 Hk2).
  - exact (kept_by_navigation_trans _ _ _ Hk3 Hk4).
  - congruence.
  - congruence.
Qed.

(** X16. In every state a session reaches, next on the last question (or
    with no question at all) ends the quiz: the results are shown, no
    interval is left running, and position and score stay as they are. *)
Theorem last_question_finishes (overlay : bool) (evs : list event) :
  let s := run evs (initial overlay) in
  Z.of_nat (length (quizData s)) - 1 <= currentQuestionIndex s ->
  let s' := step NextClicked s in
  active s' = Results
  /\ intervals s' = ∅
  /\ timerHandle s' = None
  /\ currentQuestionIndex s' = currentQuestionIndex s
  /\ score s' = score s.
Proof.
  intros s Hlast s'.
  destruct (run_invariant evs _ (invariant_initial overlay)) as (_ & _ & Ht).
  fold s in Ht. unfold timer_ok in Ht.
  destruct (nextQuestion_effect s) as ((_ & _ & _ & _ & Hs) & _ & Hi).
  destruct (Z.ltb_spec (currentQuestionIndex s)
              (Z.of_nat (length (quizData s)) - 1)); [lia|].
  destruct Hi as (Hi & Ha & Hh & _ & Hiv).
  subst s'. cbn [step]. rewrite Hiv, Ht.
  repeat split; try done. destruct (timerHandle s); set_solver.
Qed.

(** X17. Try again starts the same quiz over: position 0, score 0 and no
    answers, with the questions and the ledger as they were, so that no
    request is sent. With questions stored the quiz page is shown; with
    none the set-up dialog is asked for instead: the page shown stays and
    no timer is started. *)
Theorem restart_keeps_questions (s : state) :
  let s' := settle (restartQuiz s) in
  currentQuestionIndex s' = 0
  /\ score s' = 0
  /\ selectedAnswers s' = ∅
  /\ quizData s' = quizData s
  /\ previousQuestions s' = previousQuestions s
  /\ requests s' = requests s
  /\ (if bool_decide (quizData s = [])
      then active s' = active s /\ timerHandle s' = timerHandle s
           /\ intervals s' = intervals s
      else active s' = Quiz).
Proof.
  unfold restartQuiz. cbn [quizData set_currentQuestionIndex
    set_selectedAnswers set_score]. case_bool_decide as Hq; [done|].
  match goal with
  | |- context [renderQuestion ?s0] =>
      pose proof (render_start_effect s0)
        as ((Eq & Ep & Er & Esel & Es) & Hi & Ha & _)
  end.
  cbn zeta in *. rewrite Hi, Es, Esel, Eq, Ep, Er, Ha. done.
Qed.

(** *** Selecting and showing *)

(** X18. A selection marks one button at most: after [onOptionClicked]
    with index [i] no button but the one at [i] is marked selected, and
    that one is if it exists. Without option buttons the call does
    nothing at all. *)
Theorem one_button_selected (i : Z) (s : state) :
  let s' := onOptionClicked i s in
  (forall j b, buttons s' !! j = Some b -> selected b = true -> Z.of_nat j = i)
  /\ (forall b, index (buttons s) i = Some b ->
        exists b', index (buttons s') i = Some b'
                   /\ selected b' = true /\ label b' = label b)
  /\ (buttons s = [] -> s' = s).
Proof.
  unfold onOptionClicked. case_bool_decide as Hb.
  { rewrite Hb. split; [done|]. split; [|done].
    intros b. unfold index. by case_match. }
  cbn zeta. split; [|split; [|done]].
  - intros j b. cbn [buttons set_buttons set_selectedAnswers setTimeout
                     set_timeouts].
    destruct (index _ i) as [b0|] eqn:Ei.
    + apply index_elem_of in Ei as [_ Hi].
      destruct (decide (j = Z.to_nat i)) as [->|Hne]; [lia|].
      rewrite list_lookup_alter_ne by done.
      rewrite list_lookup_fmap. destruct (buttons s !! j); [|done].
      simpl. by intros [= <-].
    + rewrite list_lookup_fmap. destruct (buttons s !! j); [|done].
      simpl. by intros [= <-].
  - intros b Hi. cbn [buttons set_buttons set_selectedAnswers setTimeout
                      set_timeouts].
    unfold index in *. destruct (Z.ltb_spec i 0); [done|].
    rewrite list_lookup_fmap, Hi. simpl.
    rewrite list_lookup_alter, list_lookup_fmap, Hi. simpl.
    rewrite decide_True by done. eexists. split; [done|]. done.
Qed.

(** The button of the option at place [k] with text [t]. *)
Definition fresh_button (k : nat) (t : jstring) : button :=
  {| letter := (65 + N.of_nat k)%N; label := t; selected := false;
     correct := false; incorrect := false; enabled := true |}.

Lemma render_options_shows (opts : list JSON) (ts : list jstring) (i : nat)
    (s : state) :
  Forall2 (fun o t => toString o = Ok t) opts ts ->
  render_options opts (N.of_nat i) s
  = Done (set_buttons (buttons s ++ imap (fun k => fresh_button (i + k)) ts) s).
Proof.
  intros H. revert i s. induction H as [|o t opts ts Ho _ IH]; intros i s.
  - simpl. rewrite app_nil_r. by destruct s.
  - cbn [render_options]. rewrite Ho.
    replace (N.of_nat i + 1)%N with (N.of_nat (S i)) by lia.
    rewrite IH. f_equal.
    assert (forall a b, set_buttons a (set_buttons b s) = set_buttons a s)
      as -> by (by destruct s).
    f_equal. cbn [imap]. rewrite Nat.add_0_r.
    replace (buttons (set_buttons _ s)) with (buttons s ++ [fresh_button i t])
      by (by destruct s).
    rewrite <- app_assoc. simpl. do 2 f_equal.
    apply imap_ext. intros k x _. simpl. f_equal. lia.
Qed.

Lemma render_options_throws (opts : list JSON) (i : N) (s : state) :
  Exists (fun o => forall t, toString o <> Ok t) opts ->
  exists s', render_options opts i s = Threw s'.
Proof.
  intros H. revert i s. induction opts as [|o opts IH]; intros i s.
  { by apply Exists_nil in H. }
  cbn [render_options]. destruct (toString o) as [t|e] eqn:Eo.
  - apply Exists_cons in H as [H|H]; [by destruct (H t)|]. by apply IH.
  - by eexists.
Qed.


End ClientMoreFacts.

(** ** Second server variant: what the extractor and the handler give *)

Module ServerAltFacts.
Import JS JSFacts Server ServerAlt.

Lemma indexOf_from_range (p s : jstring) (i : Z) :
  indexOf_from p s i = -1 \/ i <= indexOf_from p s i.
Proof.
  revert i. induction s as [|c s IH]; intros i; simpl.
  - destruct (starts_with p []); [right; lia|by left].
  - destruct (starts_with p (c :: s)); [right; lia|].
    destruct (IH (i + 1)) as [->|?]; [by left|right; lia].
Qed.

Lemma lastIndexOf_from_range (p s : jstring) (i f : Z) :
  lastIndexOf_from p s i f = f \/ i <= lastIndexOf_from p s i f.
Proof.
  revert i f. induction s as [|c s IH]; intros i f; simpl.
  - destruct (starts_with p []); [right; lia|by left].
  - destruct (starts_with p (c :: s)).
    + right. destruct (IH (i + 1) i) as [->|?]; lia.
    + destruct (IH (i + 1) f) as [->|?]; [by left|right; lia].
Qed.

Lemma slice_empty_range {A} (l : list A) (b e : Z) :
  0 <= b -> 0 <= e -> e <= b -> slice l b e = [].
Proof.
  intros Hb He Hle. unfold slice, slice_pos.
  destruct (Z.ltb_spec b 0); [lia|]. destruct (Z.ltb_spec e 0); [lia|].
  replace (Z.to_nat _) with 0%nat by lia. done.
Qed.

Lemma normalize_item_trimmed (it : JSON) (q : Question) :
  ServerAlt.normalize_item it = Ok q -> trim (question q) = question q.
Proof.
  unfold ServerAlt.normalize_item. intros H.
  destruct it; simpl in H; try discriminate; ServerFacts.inv_binds H.
  all: injection H as <-; simpl; first [apply trim_idem | reflexivity].
Qed.

Section WithParser.
Variable JSON_parse : jstring -> option JSON.

(** X20. The extractor of the second variant takes the text from the
    first opening bracket to the last closing one. Its test for a missing
    closing bracket compares a position plus one with -1 and never fires;
    a text whose last closing bracket is missing or comes before its first
    opening one still gives null, because the range is then empty and the
    empty text does not parse. The handler answers 500 with the start of
    the text. *)
Theorem brackets_out_of_order (rawText : jstring) (count : Z) :
  JSON_parse [] = None ->
  lastIndexOf rawText (lit "]") < indexOf rawText (lit "[") ->
  ((lastIndexOf rawText (lit "]") + 1 =? -1) = false)
  /\ extractJsonArrayFromText JSON_parse rawText = None
  /\ ServerAlt.generate_quiz JSON_parse rawText count
     = Reply500 (Failure (lit "Failed to parse Gemini JSON.")
                         (Some (slice rawText 0 2000))).
Proof.
  intros Hp Hlt.
  assert (-1 <= lastIndexOf rawText (lit "]")) as Hl.
  { unfold lastIndexOf.
    destruct (lastIndexOf_from_range (lit "]") rawText 0 (-1)) as [->|?]; lia. }
  assert (extractJsonArrayFromText JSON_parse rawText = None) as He.
  { unfold extractJsonArrayFromText. destruct (jstring_eqb rawText []); [done|].
    destruct (_ || _); [done|].
    rewrite slice_empty_range by lia. exact Hp. }
  split; [apply Z.eqb_neq; lia|]. split; [done|].
  unfold ServerAlt.generate_quiz. rewrite He.
  destruct (jstring_eqb rawText []) eqn:E; [|done].
  apply jstring_eqb_true in E. subst. vm_compute in Hlt. discriminate.
Qed.

(** X21. What the handler of the second variant returns with status 200:
    every question has a text that is trimmed and not empty and at least
    two options, and for a count that is not negative there are no more
    questions than the count. *)
Theorem second_variant_reply_shape (rawText : jstring) (count : Z)
    (qs : list Question) :
  ServerAlt.generate_quiz JSON_parse rawText count = Reply200 qs ->
  Forall (fun q => question q <> [] /\ trim (question q) = question q
                   /\ (2 <= length (options q))%nat) qs
  /\ (0 <= count -> (length qs <= Z.to_nat count)%nat).
Proof.
  unfold ServerAlt.generate_quiz. intros H.
  destruct (extractJsonArrayFromText JSON_parse rawText) as [[| | | |l|]|];
    try discriminate.
  destruct (map_items ServerAlt.normalize_item l) as [all|] eqn:Em;
    [|discriminate]. injection H as <-.
  apply ServerFacts.map_items_Forall2 in Em. split.
  - apply ServerMoreFacts.slice_Forall. apply Forall_forall. intros q Hq.
    apply list_elem_of_filter in Hq as [Hu Hq].
    apply andb_prop in Hu as [Hne Hlen]. apply negb_true_iff in Hne.
    apply jstring_eqb_false in Hne. apply Nat.leb_le in Hlen.
    apply list_elem_of_lookup in Hq as [i Hi].
    destruct (Forall2_lookup_r _ _ _ _ _ Em Hi) as (it & _ & Hit).
    apply normalize_item_trimmed in Hit. done.
  - intros Hc. rewrite ServerFacts.slice_take by done. rewrite length_take. lia.
Qed.

End WithParser.

End ServerAltFacts.

(** ** From the handler to the page: the two ends together *)

Module WireMoreFacts.
Import JS JSFacts.

(** The entry the client stores for a question of a 200 reply. *)
Definition stored (sq : Server.Question) : Client.Question :=
  {| Client.question := trim (Server.question sq);
     Client.options := slice (JStr <$> Server.options sq) 0 4;
     Client.answer_index := Z.max 0 (Z.min 3 (Server.answer_index sq));
     Client.explanation := JStr (Server.explanation sq) |}.

(** The text by which the client tells questions apart. *)
Definition key (sq : Server.Question) : jstring := trim (Server.question sq).

(** The texts the session already holds. *)
Definition held (s : Client.state) : list jstring :=
  (trim <$> (Client.question <$> Client.quizData s))
  ++ Client.previousQuestions s.

Lemma candidate_text_of_reply (sq : Server.Question) :
  Client.candidate_text (Server.Question_json sq) = Ok (key sq).
Proof.
  destruct sq as [qq oo aa ee].
  unfold Client.candidate_text, Server.Question_json, prop, key.
  cbn [mbind result_bind]. WireFacts.eval_own. simpl.
  unfold or_else, truthy. destruct (jstring_eqb qq []) eqn:E; simpl; [|done].
  apply jstring_eqb_true in E. by subst.
Qed.

Lemma is_dup_new (qtext : jstring) (s : Client.state) :
  qtext ∉ held s -> Client.is_dup qtext s = false.
Proof.
  unfold held. rewrite not_elem_of_app. intros [Hq Hp].
  unfold Client.is_dup. apply orb_false_intro.
  - apply not_true_iff_false. intros He. apply Hq.
    apply existsb_exists in He as (e & Hin & He).
    apply jstring_eqb_true in He. apply list_elem_of_In in Hin.
    apply list_elem_of_fmap. exists (Client.question e). split; [done|].
    apply list_elem_of_fmap. by exists e.
  - by apply bool_decide_eq_false.
Qed.

Lemma append_candidate_of_reply (sq : Server.Question) (s : Client.state) :
  key sq <> [] -> key sq ∉ held s ->
  Client.append_candidate (Server.Question_json sq) s
  = Ok (Client.set_previousQuestions (Client.previousQuestions s ++ [key sq])
          (Client.set_quizData (Client.quizData s ++ [stored sq]) s), 1).
Proof.
  intros Hne Hnew. unfold Client.append_candidate.
  rewrite candidate_text_of_reply. cbn [mbind result_bind].
  rewrite (proj2 (jstring_eqb_false _ _)) by done.
  rewrite is_dup_new by done.
  rewrite WireFacts.normalize_fields_of_reply. done.
Qed.

(** The state with the questions [qs] of a reply stored. *)
Definition with_stored (qs : list Server.Question) (s : Client.state)
  : Client.state :=
  Client.set_previousQuestions (Client.previousQuestions s ++ (key <$> qs))
    (Client.set_quizData (Client.quizData s ++ (stored <$> qs)) s).

Lemma held_with_stored (q : Server.Question) (s : Client.state) :
  held (with_stored [q] s) ≡ₚ key q :: key q :: held s.
Proof.
  unfold held, with_stored. simpl. rewrite !fmap_app. simpl.
  unfold key. rewrite trim_idem.
  rewrite <- !app_assoc. simpl.
  rewrite <- !Permutation_middle. by rewrite app_nil_r.
Qed.

Lemma append_all_of_reply (qs : list Server.Question) (s : Client.state)
    (a : Z) :
  NoDup (key <$> qs) ->
  Forall (fun q => key q <> [] /\ (key q ∉ held s)) qs ->
  Client.append_all (Server.Question_json <$> qs) s a
  = (with_stored qs s, a + Z.of_nat (length qs), false).
Proof.
  revert s a. induction qs as [|q qs IH]; intros s a Hnd Hall.
  { simpl. unfold with_stored. simpl. rewrite !app_nil_r, Z.add_0_r.
    by destruct s. }
  apply NoDup_cons in Hnd as [Hq Hnd]. apply Forall_cons in Hall as [[Hne Hnew] Hall].
  cbn [fmap list_fmap Client.append_all].
  rewrite append_candidate_of_reply by done.
  change (Client.set_previousQuestions _ _) with (with_stored [q] s).
  rewrite IH; [| done |].
  - f_equal. f_equal.
    + unfold with_stored. simpl. rewrite <- !app_assoc. by destruct s.
    + rewrite length_cons. lia.
  - apply Forall_forall. intros q' Hq'. rewrite Forall_forall in Hall.
    destruct (Hall q' Hq') as [Hne' Hnew']. split; [done|].
    rewrite held_with_stored. rewrite !not_elem_of_cons.
    assert (key q' <> key q) as Hk.
    { intros E. apply Hq. rewrite <- E. apply list_elem_of_fmap. by exists q'. }
    done.
Qed.


(** The state after a round that failed with the message [m] of the
    server. *)
Definition refused (m : jstring) (s : Client.state) : Client.state :=
  Client.showLoading false []
    (Client.alert (lit "Failed to generate quiz: " ++ m) s).

Lemma error_field_alerted (fields : list (jstring * JSON)) (m : jstring)
    (s : Client.state) :
  own fields (lit "error") = Some (JStr m) -> m <> [] ->
  Client.fetchAndAppendQuestions (Client.Answer false (JObj fields)) s
  = (false, refused m s).
Proof.
  intros He Hm. unfold Client.fetchAndAppendQuestions, prop. cbn [negb].
  rewrite He.
  assert (truthy (Some (JStr m)) = true) as Ht.
  { unfold truthy. by rewrite (proj2 (jstring_eqb_false _ _)). }
  rewrite (ServerFacts.or_else_truthy _ _ Ht), Ht. done.
Qed.

(** The messages of the error replies of the first variant. *)
Definition error_messages : list jstring :=
  [ lit "Invalid topic (min 3 chars).";
    lit "Count must be integer between 1 and 20.";
    lit "Server error";
    lit "No supported models available" ].

Section WithParser.
Variable JSON_parse : jstring -> option JSON.

Lemma generate_quiz_400 (topic count : option JSON) (text m : jstring) :
  Server.generate_quiz JSON_parse topic count text = Server.Reply400 m ->
  m = lit "Invalid topic (min 3 chars)."
  \/ m = lit "Count must be integer between 1 and 20.".
Proof.
  unfold Server.generate_quiz. intros H.
  repeat case_match; simplify_eq; auto.
Qed.


End WithParser.

Section Validation.
Variable JSON_parse : jstring -> option JSON.

(** The reply of the first variant to a request of the client. *)
Definition answer_to (r : Client.request) (text : jstring) : Server.reply :=
  Server.generate_quiz JSON_parse (Some (JStr (Client.topic r)))
    (Some (JNum (Client.count r))) text.

(** X24. The count a session sends always passes the check of the
    server: to no request of a session does the handler answer that the
    count must be between 1 and 20. *)
Theorem client_count_accepted (overlay : bool) (evs : list Client.event)
    (r : Client.request) (text : jstring) :
  r ∈ Client.requests (Client.run evs (Client.initial overlay)) ->
  answer_to r text
  <> Server.Reply400 (lit "Count must be integer between 1 and 20.").
Proof.
  intros Hin.
  pose proof (ClientMoreFacts.run_more evs _
                (ClientMoreFacts.invariant_more_initial overlay))
    as (_ & _ & Hr & _).
  unfold ClientMore.requests_ok in Hr. rewrite Forall_forall in Hr.
  destruct (Hr r Hin) as (_ & Hc & _).
  unfold answer_to, Server.generate_quiz. cbn [isString isNumber].
  case_match.
  { intros E. injection E as E. vm_compute in E. discriminate. }
  destruct (Z.ltb_spec (Client.count r) 1); [lia|].
  destruct (Z.ltb_spec 20 (Client.count r)); [lia|].
  cbn [orb]. repeat case_match; discriminate.
Qed.


End Validation.

End WireMoreFacts.

(** ** Starting the server: [startServer] *)

Module Startup.

(** How [app.listen(PORT)] ends: the callback runs, or the [error] event
    fires, with the code [EADDRINUSE] or with another one. *)
Inductive listened := Bound | InUse | OtherError.

Definition maxAttempts : nat := 5.

(** [startServer(attempt)] with [retries] for [maxAttempts - attempt]:
    the port the server ends up listening on, or [None] for
    [process.exit(1)]. *)
Fixpoint startServer (listen : Z -> listened) (retries : nat) (PORT : Z)
  : option Z :=
  match listen PORT with
  | Bound => Some PORT
  | InUse =>
      match retries with
      | S retries => startServer listen retries (PORT + 1)
      | O => None
      end
  | OtherError => None
  end.

(** X26. [startServer] listens on the first port from [PORT] on that is
    not in use, trying six ports (the first one and five retries), and
    ends the process if a port fails otherwise or all six are in use. *)
Theorem startServer_first_free (listen : Z -> listened) (PORT p : Z) :
  startServer listen maxAttempts PORT = Some p
  <-> exists k : nat,
        (k <= 5)%nat /\ p = PORT + Z.of_nat k /\ listen p = Bound
        /\ forall j : nat, (j < k)%nat -> listen (PORT + Z.of_nat j) = InUse.
Proof.
  unfold maxAttempts. generalize 5%nat as n. intros n. revert PORT.
  induction n as [|n IH]; intros PORT; cbn [startServer].
  - destruct (listen PORT) eqn:E; split.
    + intros [= <-]. exists 0%nat. rewrite Z.add_0_r.
      split; [lia|]. split; [done|]. split; [done|]. intros j Hj. lia.
    + intros (k & Hk & -> & _). f_equal. lia.
    + done.
    + intros (k & Hk & -> & Hb & _). replace k with 0%nat in Hb by lia.
      rewrite Z.add_0_r in Hb. congruence.
    + done.
    + intros (k & Hk & -> & Hb & _). replace k with 0%nat in Hb by lia.
      rewrite Z.add_0_r in Hb. congruence.
  - destruct (listen PORT) eqn:E.
    + split.
      * intros [= <-]. exists 0%nat. rewrite Z.add_0_r.
        split; [lia|]. split; [done|]. split; [done|]. intros j Hj. lia.
      * intros (k & Hk & -> & _ & Hfree). destruct k as [|k].
        { by rewrite Z.add_0_r. }
        specialize (Hfree 0%nat ltac:(lia)). rewrite Z.add_0_r in Hfree.
        congruence.
    + rewrite IH. split.
      * intros (k & Hk & -> & Hb & Hfree). exists (S k).
        split; [lia|]. split; [lia|].
        split; [by replace (PORT + Z.of_nat (S k))
                     with (PORT + 1 + Z.of_nat k) by lia|].
        intros [|j] Hj; [by rewrite Z.add_0_r|].
        replace (PORT + Z.of_nat (S j)) with (PORT + 1 + Z.of_nat j) by lia.
        apply Hfree. lia.
      * intros (k & Hk & -> & Hb & Hfree). destruct k as [|k].
        { rewrite Z.add_0_r in Hb. congruence. }
        exists k. split; [lia|]. split; [lia|].
        split; [by replace (PORT + 1 + Z.of_nat k)
                     with (PORT + Z.of_nat (S k)) by lia|].
        intros j Hj.
        replace (PORT + 1 + Z.of_nat j) with (PORT + Z.of_nat (S j)) by lia.
        apply Hfree. lia.
    + split; [done|].
      intros (k & Hk & -> & Hb & Hfree). destruct k as [|k].
      { rewrite Z.add_0_r in Hb. congruence. }
      specialize (Hfree 0%nat ltac:(lia)). rewrite Z.add_0_r in Hfree.
      congruence.
Qed.

End Startup.

(** ** The properties above on sessions that run *)

Module ScenarioMore.
Import JS Scenario.

(** The first round of a session: the answer of the server delivered to a
    page that holds nothing yet. *)
Definition first_round : bool * Client.state :=
  Client.fetchAndAppendQuestions (Wire.deliver reply) (Client.initial true).


Lemma countdown_witness :
  let s' := ClientMore.ticks 31 started_short in
  Client.timeLeft s' = 30 - Z.of_nat 31
  /\ Client.timeouts s'
     = Client.timeouts started_short
       ++ replicate (31 - 29) (1200, Client.Advance)
  /\ Client.score s' = Client.score started_short
  /\ Client.currentQuestionIndex s'
     = Client.currentQuestionIndex started_short
  /\ Client.selectedAnswers s' = Client.selectedAnswers started_short
  /\ Client.timerHandle s' = Client.timerHandle started_short
  /\ Client.intervals s' = Client.intervals started_short.
Proof.
  apply (ClientMoreFacts.countdown started_short short_question 31).
  - vm_compute. reflexivity.
  - vm_compute. discriminate.
  - vm_compute. reflexivity.
Defined.

Lemma clicks_ignored_after_feedback_witness :
  let s' := Client.settle (Client.showAnswerFeedback 1 started_short) in
  Client.step (Client.OptionClicked 0) s' = s'
  /\ (Client.active started_short = Client.Quiz ->
      Client.buttons started_short <> [] ->
      Client.timeouts (Client.step (Client.KeyDown (lit "1")) s')
      = Client.timeouts s' ++ [(400, Client.Feedback 0)]).
Proof.
  apply (ClientMoreFacts.clicks_ignored_after_feedback started_short 1 0).
  exists short_question. vm_compute. reflexivity.
Defined.

Lemma navigation_round_trip_witness :
  Client.currentQuestionIndex
    (Client.settle (Client.previousQuestion
                      (Client.settle (Client.nextQuestion started))))
  = Client.currentQuestionIndex started.
Proof.
  pose proof (ClientMoreFacts.navigation_round_trip started) as H.
  cbv zeta in H. destruct H as (_ & H & _).
  apply H. vm_compute. split; [discriminate|reflexivity].
Defined.

Lemma last_question_finishes_witness :
  let s' := Client.step Client.NextClicked started_short in
  Client.active s' = Client.Results
  /\ Client.intervals s' = ∅
  /\ Client.timerHandle s' = None
  /\ Client.currentQuestionIndex s'
     = Client.currentQuestionIndex started_short
  /\ Client.score s' = Client.score started_short.
Proof.
  apply (ClientMoreFacts.last_question_finishes true
           [ Client.ModalStart (lit "Planets") 5;
             Client.Response 0
               (Wire.deliver (ServerAlt.generate_quiz JSON_parse short_text 5)) ]).
  vm_compute. discriminate.
Defined.

Lemma one_button_selected_witness :
  exists b', index (Client.buttons (Client.onOptionClicked 1 started)) 1
             = Some b'
             /\ Client.selected b' = true
             /\ Client.label b' = lit "fun".
Proof.
  pose proof (ClientMoreFacts.one_button_selected 1 started) as H.
  cbv zeta in H. destruct H as (_ & H & _).
  apply (H {| Client.letter := 66; Client.label := lit "fun";
              Client.selected := false; Client.correct := false;
              Client.incorrect := false; Client.enabled := true |}).
  vm_compute. reflexivity.
Defined.


(** A text whose only closing bracket comes before its opening one. *)
Definition out_of_order : jstring := text "] no array here [".

Lemma brackets_out_of_order_witness :
  ((lastIndexOf out_of_order (lit "]") + 1 =? -1) = false)
  /\ ServerAlt.extractJsonArrayFromText JSON_parse out_of_order = None
  /\ ServerAlt.generate_quiz JSON_parse out_of_order 5
     = Server.Reply500 (Failure (lit "Failed to parse Gemini JSON.")
                          (Some (slice out_of_order 0 2000))).
Proof.
  apply (ServerAltFacts.brackets_out_of_order JSON_parse out_of_order 5).
  - vm_compute. reflexivity.
  - vm_compute. reflexivity.
Defined.

(** The questions of the replies of the two variants. *)
Definition questions_of (r : Server.reply) : list Server.Question :=
  match r with Server.Reply200 qs => qs | _ => [] end.

Definition short_reply : Server.reply :=
  ServerAlt.generate_quiz JSON_parse short_text 5.

Lemma second_variant_reply_shape_witness :
  Forall (fun q => Server.question q <> []
                   /\ trim (Server.question q) = Server.question q
                   /\ (2 <= length (Server.options q))%nat)
         (questions_of short_reply)
  /\ (0 <= 5 -> (length (questions_of short_reply) <= Z.to_nat 5)%nat).
Proof.
  apply (ServerAltFacts.second_variant_reply_shape JSON_parse short_text 5
           (questions_of short_reply)).
  vm_compute. reflexivity.
Defined.



(** The request of the started session. *)
Definition first_request : Client.request :=
  {| Client.topic := lit "Python basics"; Client.count := 2;
     Client.usedQuestionsText := [] |}.

Lemma client_count_accepted_witness :
  (first_request
   ∈ Client.requests (Client.run start_events (Client.initial true)))
  /\ WireMoreFacts.answer_to JSON_parse first_request provider_text
     <> Server.Reply400 (lit "Count must be integer between 1 and 20.").
Proof.
  assert (first_request
          ∈ Client.requests (Client.run start_events (Client.initial true)))
    as Hin.
  { assert (Client.requests (Client.run start_events (Client.initial true))
            = [first_request]) as -> by (vm_compute; reflexivity).
    apply list_elem_of_here. }
  split; [exact Hin|].
  exact (WireMoreFacts.client_count_accepted JSON_parse true start_events
           first_request provider_text Hin).
Defined.


End ScenarioMore.
